(** * Botan's algorithm registry (src/lib/algo_base/algo_registry.h)

    A shallow embedding of [Algo_Registry<T>], its registration handle
    [Algo_Registry<T>::Add], the free function [make_a] and the construction
    adapters, and of the echo loop of doc/examples/tls_server.cpp, followed
    by the properties of the registry that the design document states and
    by further properties read off the code.

    Conventions of the embedding:
    - a [std::unordered_map<std::string, V>] is the list of its elements in
      iteration order; where a new element lands in that order is fixed by
      the hash table and not by the program, so it is a parameter ([slot]);
    - a [std::function] is either empty or holds a callable target;
    - a [T*] is either [nullptr] or points to an object;
    - a call either returns or throws; [catch (std::exception&)] catches
      exactly the exceptions whose class derives from [std::exception];
    - taking and releasing [m_mutex] is recorded in a trace of events. *)

From Stdlib Require Import String Ascii List Bool Arith NArith Lia Permutation.
Import ListNotations.
Local Open Scope string_scope.
Local Open Scope list_scope.

(** ** Values of the C++ side *)

(** [T*]: null, or the address of a live object (identified with the object). *)
Inductive ptr (T : Type) : Type :=
| nullptr
| obj (t : T).
Arguments nullptr {T}.
Arguments obj {T} t.

Definition is_null {T : Type} (p : ptr T) : bool :=
  match p with nullptr => true | obj _ => false end.

(** [std::function<Sig>]: empty, or wrapping a callable. *)
Inductive function (F : Type) : Type :=
| empty_function
| target (f : F).
Arguments empty_function {F}.
Arguments target {F} f.

(** [operator bool] of [std::function]. *)
Definition has_target {F : Type} (fn : function F) : bool :=
  match fn with empty_function => false | target _ => true end.

(** Thrown values.  The first three are classes derived from
    [std::exception]; [foreign] stands for a thrown value of any other type
    (C++ lets a callable throw an [int]). *)
Inductive exception : Type :=
| runtime_error (msg : string)
| bad_function_call
| std_exception (msg : string)
| foreign (v : nat).

(** [e.what()] for the classes derived from [std::exception]; [None] for a
    thrown value that a handler for [std::exception&] does not match. *)
Definition what (e : exception) : option string :=
  match e with
  | runtime_error msg => Some msg
  | bad_function_call => Some "bad_function_call"
  | std_exception msg => Some msg
  | foreign _ => None
  end.

Inductive outcome (A : Type) : Type :=
| Normal (a : A)
| Raise (e : exception).
Arguments Normal {A} a.
Arguments Raise {A} e.

(** Operations on a [std::mutex], named after the mutex they act on. *)
Inductive event : Type :=
| Lock (m : nat)
| Unlock (m : nat).

(** A computation: the mutex events it performed, in order, and how it ended. *)
Definition M (A : Type) : Type := (list event * outcome A)%type.

Definition ret {A : Type} (a : A) : M A := ([], Normal a).
Definition raise {A : Type} (e : exception) : M A := ([], Raise e).
Definition lift {A : Type} (r : outcome A) : M A := ([], r).

Definition bind {A B : Type} (c : M A) (k : A -> M B) : M B :=
  match c with
  | (tr, Normal a) => let (tr', r) := k a in (tr ++ tr', r)
  | (tr, Raise e) => (tr, Raise e)
  end.

Notation "x <- c ;; k" := (bind c (fun x => k))
  (at level 61, c at next level, right associativity).

(** [try { body } catch (std::exception& e) { handler }]: the handler runs
    only for an exception derived from [std::exception], and receives its
    [what()]; any other thrown value passes through. *)
Definition try_catch_std {A : Type} (body : M A) (handler : string -> M A) : M A :=
  match body with
  | (tr, Normal a) => (tr, Normal a)
  | (tr, Raise e) =>
      match what e with
      | Some w => let (tr', r) := handler w in (tr ++ tr', r)
      | None => (tr, Raise e)
      end
  end.

(** A computation that runs once the events [tr] have happened. *)
Definition after {A : Type} (tr : list event) (c : M A) : M A :=
  (tr ++ fst c, snd c).

(** A [std::unique_lock<std::mutex>] local to a block: taken on entry,
    released when the block is left. *)
Definition with_unique_lock {A : Type} (m : nat) (a : A) : list event * A :=
  ([Lock m; Unlock m], a).

(** ** [std::unordered_map<std::string, V>] *)

Module UMap.
Section Container.
(** [slot k ks]: the position, in iteration order, at which the table puts
    a new key [k] when it already holds the keys [ks].  An insertion that
    makes the table rehash may also reorder the keys it already held; that
    is not modelled, and no property below is about the order of the keys
    that were already there. *)
Variable slot : string -> list string -> nat.
Variable V : Type.

(** The elements, in iteration order. *)
Local Abbreviation t := (list (string * V)).

Definition keys (m : t) : list string := map fst m.

Fixpoint find (k : string) (m : t) : option V :=
  match m with
  | [] => None
  | (k', v) :: m' => if String.eqb k k' then Some v else find k m'
  end.

Definition empty (m : t) : bool :=
  match m with [] => true | _ :: _ => false end.

Definition size (m : t) : nat := length m.

(** [*m.begin()], for a map that is not empty. *)
Definition begin (m : t) : option (string * V) := hd_error m.

Definition emplace (k : string) (v : V) (m : t) : t :=
  let i := slot k (keys m) in
  firstn i m ++ (k, v) :: skipn i m.

(** Writing through a reference to the element of key [k]. *)
Fixpoint assign (k : string) (v : V) (m : t) : t :=
  match m with
  | [] => []
  | (k', v') :: m' =>
      if String.eqb k k' then (k', v) :: m' else (k', v') :: assign k v m'
  end.

(** [m[k]]: the element of key [k], value-initialised first if absent. *)
Definition subscript (dflt : V) (k : string) (m : t) : V * t :=
  match find k m with
  | Some v => (v, m)
  | None => (dflt, emplace k dflt m)
  end.
End Container.

Arguments keys {V} m.
Arguments find {V} k m.
Arguments empty {V} m.
Arguments size {V} m.
Arguments begin {V} m.
Arguments emplace slot {V} k v m.
Arguments assign {V} k v m.
Arguments subscript slot {V} dflt k m.

Abbreviation t V := (list (string * V)).
End UMap.

(** ** The specification type [T::Spec] *)

(** Modelled from the spec: the class behind [T::Spec] is not in this
    header.  The design document gives its interface: a base name, ordered
    arguments and a canonical form, with [argument(i)] failing if absent. *)
Record Spec : Type := mkSpec {
  algo_name : string;
  args : list string;
  as_string : string
}.

(** Modelled from the spec: [spec.arg(i)] fails if position [i] is absent. *)
Definition arg (spec : Spec) (i : nat) : outcome string :=
  match nth_error (args spec) i with
  | Some a => Normal a
  | None => Raise (std_exception "argument out of range")
  end.

(** The default argument [provider = ""] of [make] and [make_a]: a call
    site either passes a provider or leaves it out. *)
Definition provider_or_default (provider : option string) : string :=
  match provider with Some p => p | None => "" end.

(** ** [Algo_Registry<T>] *)

(** What a non-empty [maker_fn] wraps. *)
Definition maker (T : Type) : Type := Spec -> M (ptr T).

(** [typedef std::function<T* (const Spec&)> maker_fn] *)
Abbreviation maker_fn T := (function (maker T)).

(** The type of [m_maker_fns]. *)
Abbreviation table T := (UMap.t (UMap.t (maker_fn T))).

Section Registry.
Variable slot : string -> list string -> nat.
Variable T : Type.

Local Abbreviation maker_fn := (maker_fn T).
Local Abbreviation table := (table T).

Record Algo_Registry : Type := mkRegistry {
  m_mutex : nat;
  m_maker_fns : table
}.

(** The value of the expression [m_maker_fns[name][provider]], and the
    table once both subscripts have created what was missing. *)
Definition subscript2 (tbl : table) (name provider : string) : maker_fn * table :=
  let (inner, tbl1) := UMap.subscript slot [] name tbl in
  let (fn, inner1) := UMap.subscript slot empty_function provider inner in
  (fn, UMap.assign name inner1 tbl1).

(** [m_maker_fns[name][provider] = fn]. *)
Definition store2 (tbl : table) (name provider : string) (fn : maker_fn) : table :=
  let (inner, tbl1) := UMap.subscript slot [] name tbl in
  let (_, inner1) := UMap.subscript slot empty_function provider inner in
  UMap.assign name (UMap.assign provider fn inner1) tbl1.

Definition add (R : Algo_Registry) (name provider : string) (fn : maker_fn)
  : list event * Algo_Registry :=
  with_unique_lock (m_mutex R)
    (let (cur, tbl1) := subscript2 (m_maker_fns R) name provider in
     mkRegistry (m_mutex R)
       (if negb (has_target cur) then store2 tbl1 name provider fn else tbl1)).

(** As the header has it, this member does not compile once it is
    instantiated: it is [const] and locks [m_mutex], which is not
    [mutable], and its loop pushes the elements of the inner map, which are
    pairs, onto a vector of strings.  What is modelled is the member as it
    is evidently meant: the mutex taken, and the provider names of the
    base name pushed in iteration order. *)
Definition providers (R : Algo_Registry) (basename : string)
  : list event * list string :=
  with_unique_lock (m_mutex R)
    (match UMap.find basename (m_maker_fns R) with
     | Some i => UMap.keys i
     | None => []
     end).

(** [[](const Spec&) { return nullptr; }] *)
Definition null_maker : maker_fn := target (fun _ => ret nullptr).

Definition find_maker (R : Algo_Registry) (spec : Spec) (provider : string)
  : list event * maker_fn :=
  let basename := algo_name spec in
  with_unique_lock (m_mutex R)
    (let found :=
       match UMap.find basename (m_maker_fns R) with
       | Some providers =>
           if negb (UMap.empty providers) then
             if negb (String.eqb provider "") then
               UMap.find provider providers
             else if Nat.eqb (UMap.size providers) 1 then
               option_map snd (UMap.begin providers)
             else if Nat.ltb 1 (UMap.size providers) then
               option_map snd (UMap.begin providers)
             else None
           else None
       | None => None
       end in
     match found with
     | Some fn => fn
     | None => null_maker
     end).

(** Calling a [std::function]: an empty one throws [std::bad_function_call]. *)
Definition invoke (fn : maker_fn) (spec : Spec) : M (ptr T) :=
  match fn with
  | target f => f spec
  | empty_function => raise bad_function_call
  end.

(** The [try] block of [make] with its handler. *)
Definition try_maker (maker : maker_fn) (spec : Spec) : M (ptr T) :=
  try_catch_std (invoke maker spec)
    (fun w => raise (runtime_error
                       ("Creating '" ++ as_string spec ++ "' failed: " ++ w))).

Definition make (R : Algo_Registry) (spec : Spec) (provider : string) : M (ptr T) :=
  let (tr, maker) := find_maker R spec provider in
  after tr (try_maker maker spec).

(** [make_a<T>(spec, provider)], over the state [G] of the global registry. *)
Definition make_a (G : Algo_Registry) (spec : Spec) (provider : option string)
  : M (ptr T) :=
  make G spec (provider_or_default provider).

(** The two constructors of [Algo_Registry<T>::Add], as transformers of
    the global registry they register with.  The class has no members. *)
Definition Add (G : Algo_Registry) (basename : string) (fn : maker_fn)
    (provider : option string) : list event * Algo_Registry :=
  add G basename (match provider with Some p => p | None => "builtin" end) fn.

Definition Add_cond (G : Algo_Registry) (cond : bool) (basename : string)
    (fn : maker_fn) (provider : string) : list event * Algo_Registry :=
  if cond then add G basename provider fn else ([], G).

(** The events of a lookup: the mutex taken once and given back. *)
Definition lookup_events (R : Algo_Registry) : list event :=
  [Lock (m_mutex R); Unlock (m_mutex R)].

(** The entry of a pair, if the table has one. *)
Definition entry (tbl : table) (name provider : string) : option maker_fn :=
  match UMap.find name tbl with
  | Some i => UMap.find provider i
  | None => None
  end.

Definition lookup (R : Algo_Registry) (name provider : string) : option maker_fn :=
  entry (m_maker_fns R) name provider.

(** [Algo_Registry() {}]: a registry starts with an empty table. *)
Definition new_registry (mutex : nat) : Algo_Registry := mkRegistry mutex [].

(** *** A client of one registry

    The member functions a client may call, and the state of the
    registry object after each call.  [add] is the only member that
    writes [m_maker_fns]; [providers] and [make] (through [find_maker])
    only read it with [find]. *)
Inductive call : Type :=
| Call_add (name provider : string) (fn : maker_fn)
| Call_providers (basename : string)
| Call_make (spec : Spec) (provider : string).

Inductive reply : Type :=
| Added
| Listed (names : list string)
| Made (result : outcome (ptr T)).

Definition step (R : Algo_Registry) (c : call) : list event * reply * Algo_Registry :=
  match c with
  | Call_add name provider fn =>
      let (tr, R') := add R name provider fn in (tr, Added, R')
  | Call_providers basename =>
      let (tr, names) := providers R basename in (tr, Listed names, R)
  | Call_make spec provider =>
      let (tr, r) := make R spec provider in (tr, Made r, R)
  end.

Fixpoint run (R : Algo_Registry) (cs : list call) : Algo_Registry :=
  match cs with
  | [] => R
  | c :: cs' => run (snd (step R c)) cs'
  end.

Definition is_add (c : call) : bool :=
  match c with Call_add _ _ _ => true | _ => false end.
End Registry.

Arguments m_mutex {T} a.
Arguments m_maker_fns {T} a.
Arguments mkRegistry {T} m_mutex m_maker_fns.
Arguments add slot {T} R name provider fn.
Arguments subscript2 slot {T} tbl name provider.
Arguments store2 slot {T} tbl name provider fn.
Arguments providers {T} R basename.
Arguments null_maker {T}.
Arguments find_maker {T} R spec provider.
Arguments invoke {T} fn spec.
Arguments try_maker {T} maker spec.
Arguments make {T} R spec provider.
Arguments make_a {T} G spec provider.
Arguments Add slot {T} G basename fn provider.
Arguments Add_cond slot {T} G cond basename fn provider.
Arguments lookup_events {T} R.
Arguments entry {T} tbl name provider.
Arguments lookup {T} R name provider.
Arguments new_registry {T} mutex.
Arguments Call_add {T} name provider fn.
Arguments Call_providers {T} basename.
Arguments Call_make {T} spec provider.
Arguments Added {T}.
Arguments Listed {T} names.
Arguments Made {T} result.
Arguments step slot {T} R c.
Arguments run slot {T} R cs.
Arguments is_add {T} c.

(** Whether two (base name, provider) pairs are the same pair. *)
Definition same_pair (n' p' n p : string) : bool :=
  String.eqb n' n && String.eqb p' p.

(** What reading an element yields when a missing one is value-initialised. *)
Definition or_empty {F : Type} (o : option (function F)) : function F :=
  match o with Some fn => fn | None => empty_function end.

(** ** Construction adapters *)

(** [std::unique_ptr<X>]: the pointer it owns. *)
Definition unique_ptr (X : Type) : Type := ptr X.

(** [u.release()]: hands out the owned pointer and leaves [u] owning nothing. *)
Definition release {X : Type} (u : unique_ptr X) : ptr X * unique_ptr X :=
  (u, nullptr).

(** The objects that the destructor of [u] deletes. *)
Definition deleted_by_destructor {X : Type} (u : unique_ptr X) : list X :=
  match u with obj x => [x] | nullptr => [] end.

Section Adapters.
Variables T X : Type.

(** [new T]: the default constructor of [T]. *)
Variable T_default : T.

(** The constructor of [T] from a pointer to [X], which adopts the object
    it is given. *)
Variable T_wrapping : ptr X -> T.

(** The conversion from the argument string to [X::Spec], which belongs
    to the parser of specifications and may reject its input. *)
Variable Spec_of_string : string -> outcome Spec.

Definition make_new_T : maker T := fun _ => ret (obj T_default).

(** The body of [make_new_T_1X], returning with its result the local
    [x] as it is when the function is left. *)
Definition make_new_T_1X_scope (RX : Algo_Registry X) (spec : Spec)
  : M (ptr T * unique_ptr X) :=
  a <- lift (arg spec 0) ;;
  s <- lift (Spec_of_string a) ;;
  p <- make RX s (provider_or_default None) ;;
  let x : unique_ptr X := p in
  if is_null x then
    a' <- lift (arg spec 0) ;;
    raise (runtime_error a')
  else
    let (raw, x') := release x in
    ret (obj (T_wrapping raw), x').

Definition make_new_T_1X (RX : Algo_Registry X) : maker T :=
  fun spec => r <- make_new_T_1X_scope RX spec ;; ret (fst r).
End Adapters.

Arguments make_new_T {T} T_default.
Arguments make_new_T_1X_scope {T X} T_wrapping Spec_of_string RX spec.
Arguments make_new_T_1X {T X} T_wrapping Spec_of_string RX.

(** ** Reading a trace of mutex events

    [std::mutex] is not recursive: a thread that locks a mutex it already
    holds never gets it.  [run_locks held tr] replays the events of one
    thread from the set [held] of mutexes it holds; [None] means the thread
    blocked on itself. *)
Fixpoint run_locks (held : list nat) (tr : list event) : option (list nat) :=
  match tr with
  | [] => Some held
  | Lock m :: tr' =>
      if existsb (Nat.eqb m) held then None else run_locks (m :: held) tr'
  | Unlock m :: tr' => run_locks (remove Nat.eq_dec m held) tr'
  end.

(** ** The selection rule of the design document

    [static_provider_weight] is declared in the header and defined
    elsewhere; it is the parameter [weight] here.  The definitions below
    follow the words of the design document, not the code: the
    highest-weighted provider, ties going to the lexicographically smaller
    name. *)
Definition spec_prefers (weight : string -> nat) (p q : string) : bool :=
  (weight q <? weight p)%nat || ((weight q =? weight p)%nat && String.ltb p q).

Fixpoint spec_selected_provider (weight : string -> nat) (names : list string)
  : option string :=
  match names with
  | [] => None
  | p :: names' =>
      match spec_selected_provider weight names' with
      | None => Some p
      | Some q => if spec_prefers weight p q then Some p else Some q
      end
  end.

(** ** Concrete instances used by the examples *)

(** A table that puts every new key first in iteration order. *)
Definition front_slot : string -> list string -> nat := fun _ _ => 0.

(** A table that puts every new key last. *)
Definition back_slot : string -> list string -> nat := fun _ ks => length ks.

(** A maker that returns an object carrying a label. *)
Definition labelled (label : string) : maker_fn string :=
  target (fun _ => ret (obj label)).

(** A maker that throws. *)
Definition throwing (e : exception) : maker_fn string :=
  target (fun _ => raise e).

(** A specification with no arguments. *)
Definition plain_spec (name : string) : Spec := mkSpec name [] name.

(** A parser that reads its input as a bare name. *)
Definition bare_name (a : string) : outcome Spec := Normal (plain_spec a).

(** An object that wraps another one and is labelled after it. *)
Definition over (label : string) (p : ptr string) : string :=
  match p with
  | obj x => label ++ " over " ++ x
  | nullptr => label
  end.

(** ** The other accessors of the specification type *)

(** Modelled from the spec: [spec.arg(i, def)] is the argument at position
    [i], or [def] when the specification has no such position. *)
Definition arg_or (spec : Spec) (i : nat) (def : string) : string :=
  match nth_error (args spec) i with
  | Some a => a
  | None => def
  end.

(** Modelled from the spec: [spec.arg_as_integer(i, def)] reads the
    argument at position [i] as an integer, or is [def] when the
    specification has no such position.  The conversion of the text to an
    integer is not in this header; it is the parameter [to_integer]. *)
Definition arg_as_integer (to_integer : string -> outcome nat) (spec : Spec)
    (i : nat) (def : nat) : outcome nat :=
  match nth_error (args spec) i with
  | Some a => to_integer a
  | None => Normal def
  end.

(** ** The adapters for lengths and names *)

Section LengthAndNameAdapters.
Variable T : Type.
Variable to_integer : string -> outcome nat.

(** The constructors of [T] from one length, from two lengths and from a
    name. *)
Variable T_of_len : nat -> T.
Variable T_of_2len : nat -> nat -> T.
Variable T_of_str : string -> T.

Definition make_new_T_1len (DEF_VAL : nat) : maker T :=
  fun spec =>
    n <- lift (arg_as_integer to_integer spec 0 DEF_VAL) ;;
    ret (obj (T_of_len n)).

(** C++ leaves open which of the two arguments of the constructor is
    evaluated first; [second_first] is the choice of the compiler. *)
Definition make_new_T_2len (second_first : bool) (DEF1 DEF2 : nat) : maker T :=
  fun spec =>
    if second_first then
      n2 <- lift (arg_as_integer to_integer spec 1 DEF2) ;;
      n1 <- lift (arg_as_integer to_integer spec 0 DEF1) ;;
      ret (obj (T_of_2len n1 n2))
    else
      n1 <- lift (arg_as_integer to_integer spec 0 DEF1) ;;
      n2 <- lift (arg_as_integer to_integer spec 1 DEF2) ;;
      ret (obj (T_of_2len n1 n2)).

Definition make_new_T_1str (def : string) : maker T :=
  fun spec => ret (obj (T_of_str (arg_or spec 0 def))).

Definition make_new_T_1str_req : maker T :=
  fun spec =>
    a <- lift (arg spec 0) ;;
    ret (obj (T_of_str a)).
End LengthAndNameAdapters.

Arguments make_new_T_1len {T} to_integer T_of_len DEF_VAL.
Arguments make_new_T_2len {T} to_integer T_of_2len second_first DEF1 DEF2.
Arguments make_new_T_1str {T} T_of_str def.
Arguments make_new_T_1str_req {T} T_of_str.

(** ** Tables as the hash table keeps them

    A [std::unordered_map] holds each key once, and [add] never leaves a
    base name without a provider. *)
Definition well_formed {T : Type} (R : Algo_Registry T) : Prop :=
  NoDup (UMap.keys (m_maker_fns R)) /\
  forall n i, UMap.find n (m_maker_fns R) = Some i ->
              NoDup (UMap.keys i) /\ i <> [].


(** * The echo server (doc/examples/tls_server.cpp) *)

(** ** [Blocking_TLS_Server::read_loop]: how much it asks the socket for *)

(** [sizeof(buf)] for [byte buf[4096]]. *)
Definition sizeof_buf : N := 4096.

(** [std::max(sizeof(buf), std::min(desired, static_cast<size_t>(1)))] *)
Definition asking (desired : N) : N := N.max sizeof_buf (N.min desired 1).

(** ** The loop of [main] that echoes lines

    The TLS channel is outside this file.  What the loop reads from it is
    given as the list of bytes that the successive calls of [tls.read]
    deliver while the channel is active; the list ends where the channel
    stops being active or [tls.read] returns 0.  What the loop does to the
    channel is the list of the calls that the body of the loop makes
    itself.  What happens inside [tls.read] is not in that list: in
    particular [read_loop] closes the channel when the socket is at its
    end, before [tls.read] returns 0. *)
Inductive tls_call : Type :=
| Tls_write (data : string)
| Tls_close
| Tls_renegotiate (force_full : bool).

Definition newline : ascii := Ascii.ascii_of_nat 10.

Definition with_newline (s : string) : string := s ++ String newline "".

(** One turn of the loop after [tls.read] has delivered the byte [b]: the
    calls made, and the line to go on with, or [None] after [break]. *)
Definition echo_byte (line : string) (b : ascii) : list tls_call * option string :=
  let line := (line ++ String b "")%string in
  if Ascii.eqb b newline then
    if String.eqb line (with_newline "quit") then
      ([Tls_write line; Tls_close], None)
    else
      (Tls_write line ::
       (if String.eqb line (with_newline "reneg") then [Tls_renegotiate false]
        else if String.eqb line (with_newline "RENEG") then [Tls_renegotiate true]
        else []),
       Some "")
  else ([], Some line).

(** How the loop ends: by the [break] that follows "quit", with the bytes
    it never read, or because the channel was no longer active or
    [tls.read] returned 0, with the line begun. *)
Inductive echo_end : Type :=
| Quit (unread : list ascii)
| Drained (line : string).

Fixpoint echo_loop (line : string) (input : list ascii) : list tls_call * echo_end :=
  match input with
  | [] => ([], Drained line)
  | b :: input' =>
      match echo_byte line b with
      | (calls, None) => (calls, Quit input')
      | (calls, Some line') =>
          let (calls', e) := echo_loop line' input' in (calls ++ calls', e)
      end
  end.

(** Everything the calls have written, in order. *)
Fixpoint written (calls : list tls_call) : string :=
  match calls with
  | [] => ""
  | Tls_write data :: calls' => data ++ written calls'
  | _ :: calls' => written calls'
  end.

(** The payloads of the writes. *)
Fixpoint writes (calls : list tls_call) : list string :=
  match calls with
  | [] => []
  | Tls_write data :: calls' => data :: writes calls'
  | _ :: calls' => writes calls'
  end.

(** A line: text without a newline, followed by one newline. *)
Fixpoint no_newline (s : string) : bool :=
  match s with
  | EmptyString => true
  | String c s' => negb (Ascii.eqb c newline) && no_newline s'
  end.

Definition is_line (s : string) : Prop :=
  exists body, s = with_newline body /\ no_newline body = true.

(** * Properties *)

(** ** Facts about the unordered map *)

Module UMapFacts.
Section Facts.
Variable slot : string -> list string -> nat.
Variable V : Type.
Implicit Types (m : UMap.t V) (k : string) (v : V).

Lemma find_app k m1 m2 :
  UMap.find k (m1 ++ m2) =
  match UMap.find k m1 with Some v => Some v | None => UMap.find k m2 end.
Proof.
  induction m1 as [|[k' v'] m1 IH]; simpl; [reflexivity|].
  destruct (String.eqb k k'); [reflexivity | exact IH].
Qed.

Lemma find_None_iff k m : UMap.find k m = None <-> ~ In k (UMap.keys m).
Proof.
  induction m as [|[k' v'] m IH]; simpl.
  - split; [intros _ [] | reflexivity].
  - destruct (String.eqb_spec k k') as [->|Hne].
    + split; [discriminate | intros H; exfalso; apply H; now left].
    + rewrite IH. split.
      * intros H [E|E]; [congruence | exact (H E)].
      * intros H E. apply H. now right.
Qed.

Lemma find_emplace k' k v m :
  UMap.find k m = None ->
  UMap.find k' (UMap.emplace slot k v m) =
  if String.eqb k' k then Some v else UMap.find k' m.
Proof.
  intros Hk. unfold UMap.emplace.
  set (i := slot k (UMap.keys m)).
  assert (Hsplit : forall k0, UMap.find k0 m =
            match UMap.find k0 (firstn i m) with
            | Some v0 => Some v0
            | None => UMap.find k0 (skipn i m)
            end).
  { intros k0. rewrite <- find_app. now rewrite firstn_skipn. }
  rewrite find_app. simpl.
  destruct (String.eqb_spec k' k) as [->|Hne].
  - rewrite Hsplit in Hk.
    destruct (UMap.find k (firstn i m)); [discriminate | reflexivity].
  - now rewrite Hsplit.
Qed.

Lemma find_assign k' k v m :
  UMap.find k' (UMap.assign k v m) =
  if String.eqb k' k
  then match UMap.find k m with Some _ => Some v | None => None end
  else UMap.find k' m.
Proof.
  induction m as [|[k0 v0] m IH]; simpl.
  - now destruct (String.eqb k' k).
  - destruct (String.eqb_spec k k0) as [->|Hk]; simpl.
    + destruct (String.eqb_spec k' k0); reflexivity.
    + rewrite IH. destruct (String.eqb_spec k' k) as [->|Hk'].
      * apply String.eqb_neq in Hk. now rewrite Hk.
      * reflexivity.
Qed.

Lemma assign_same k v m : UMap.find k m = Some v -> UMap.assign k v m = m.
Proof.
  induction m as [|[k0 v0] m IH]; simpl; [reflexivity|].
  destruct (String.eqb k k0).
  - now intros [= ->].
  - intros H. now rewrite IH.
Qed.

Lemma keys_assign k v m : UMap.keys (UMap.assign k v m) = UMap.keys m.
Proof.
  induction m as [|[k0 v0] m IH]; simpl; [reflexivity|].
  destruct (String.eqb k k0); simpl; [reflexivity | now rewrite IH].
Qed.

(** [m[k]] yields the element of [k], or the default it has just created. *)
Lemma subscript_value (d : V) k m :
  fst (UMap.subscript slot d k m) =
  match UMap.find k m with Some v => v | None => d end.
Proof. unfold UMap.subscript. now destruct (UMap.find k m). Qed.

Lemma find_subscript (d : V) k' k m :
  UMap.find k' (snd (UMap.subscript slot d k m)) =
  if String.eqb k' k
  then Some (match UMap.find k m with Some v => v | None => d end)
  else UMap.find k' m.
Proof.
  unfold UMap.subscript. destruct (UMap.find k m) as [v|] eqn:E; simpl.
  - destruct (String.eqb_spec k' k) as [->|]; [exact E | reflexivity].
  - now apply find_emplace.
Qed.

Lemma subscript_present (d : V) k v m :
  UMap.find k m = Some v -> UMap.subscript slot d k m = (v, m).
Proof. unfold UMap.subscript. now intros ->. Qed.

Lemma size_one_begin k v m :
  UMap.size m = 1 -> UMap.find k m = Some v -> UMap.begin m = Some (k, v).
Proof.
  destruct m as [|[k0 v0] [|? ?]]; simpl; try discriminate.
  intros _. destruct (String.eqb_spec k k0) as [->|]; [|discriminate].
  now intros [= ->].
Qed.
End Facts.
End UMapFacts.

(** ** Facts about the table of makers *)

Section TableFacts.
Variable slot : string -> list string -> nat.
Variable T : Type.
Implicit Types (tbl : table T) (R : Algo_Registry T) (fn : maker_fn T).

(** Both subscripts unfolded: the inner map read, the inner map after
    the second subscript, and the outer map after the first. *)
Lemma subscript2_unfold tbl n p :
  let inner := match UMap.find n tbl with Some i => i | None => [] end in
  let inner1 := snd (UMap.subscript slot empty_function p inner) in
  let tbl1 := snd (UMap.subscript slot [] n tbl) in
  subscript2 slot tbl n p =
    (or_empty (UMap.find p inner), UMap.assign n inner1 tbl1)
  /\ (forall fn, store2 slot tbl n p fn =
                 UMap.assign n (UMap.assign p fn inner1) tbl1)
  /\ UMap.find n tbl1 = Some inner.
Proof.
  intros inner inner1 tbl1.
  assert (Hinner : fst (UMap.subscript slot [] n tbl) = inner)
    by apply UMapFacts.subscript_value.
  assert (Hcur : fst (UMap.subscript slot empty_function p inner)
                 = or_empty (UMap.find p inner))
    by apply UMapFacts.subscript_value.
  unfold subscript2, store2.
  rewrite (surjective_pairing (UMap.subscript slot [] n tbl)), Hinner.
  rewrite (surjective_pairing (UMap.subscript slot empty_function p inner)), Hcur.
  repeat split.
  subst tbl1. rewrite UMapFacts.find_subscript, String.eqb_refl. reflexivity.
Qed.

Lemma subscript2_value tbl n p :
  fst (subscript2 slot tbl n p) = or_empty (entry tbl n p).
Proof.
  destruct (subscript2_unfold tbl n p) as (-> & _ & _). simpl.
  unfold entry. now destruct (UMap.find n tbl).
Qed.

Lemma entry_subscript2 tbl n p n' p' :
  entry (snd (subscript2 slot tbl n p)) n' p' =
  if same_pair n' p' n p then Some (or_empty (entry tbl n p))
  else entry tbl n' p'.
Proof.
  destruct (subscript2_unfold tbl n p) as (-> & _ & Hn). simpl.
  unfold entry, same_pair. rewrite UMapFacts.find_assign.
  rewrite Hn.
  rewrite (UMapFacts.find_subscript slot _ [] n' n tbl).
  destruct (String.eqb_spec n' n) as [->|Hne]; simpl; [|reflexivity].
  rewrite UMapFacts.find_subscript.
  destruct (UMap.find n tbl) as [i|]; simpl;
    destruct (String.eqb p' p); reflexivity.
Qed.

Lemma entry_store2 tbl n p fn n' p' :
  entry (store2 slot tbl n p fn) n' p' =
  if same_pair n' p' n p then Some fn else entry tbl n' p'.
Proof.
  destruct (subscript2_unfold tbl n p) as (_ & -> & Hn).
  unfold entry, same_pair. rewrite UMapFacts.find_assign, Hn.
  rewrite (UMapFacts.find_subscript slot _ [] n' n tbl).
  destruct (String.eqb_spec n' n) as [->|Hne]; simpl; [|reflexivity].
  rewrite UMapFacts.find_assign, !UMapFacts.find_subscript.
  rewrite String.eqb_refl.
  destruct (UMap.find n tbl) as [i|]; simpl;
    destruct (String.eqb p' p); reflexivity.
Qed.

(** Subscripting a pair that is in the table leaves the table as it is. *)
Lemma subscript2_present tbl n p fn :
  entry tbl n p = Some fn -> subscript2 slot tbl n p = (fn, tbl).
Proof.
  unfold entry, subscript2. destruct (UMap.find n tbl) as [i|] eqn:En;
    [|discriminate].
  intros Ep. rewrite (UMapFacts.subscript_present slot _ [] n i tbl En).
  rewrite (UMapFacts.subscript_present slot _ empty_function p fn i Ep).
  now rewrite UMapFacts.assign_same.
Qed.

(** What [add] leaves in the table: the maker already there if the pair
    had a callable one, the new maker otherwise; other pairs untouched. *)
Lemma lookup_add R n p fn n' p' :
  lookup (snd (add slot R n p fn)) n' p' =
  if same_pair n' p' n p
  then Some (if has_target (or_empty (lookup R n p))
             then or_empty (lookup R n p) else fn)
  else lookup R n' p'.
Proof.
  unfold add, with_unique_lock, lookup. simpl.
  pose proof (subscript2_value (m_maker_fns R) n p) as Hv.
  pose proof (entry_subscript2 (m_maker_fns R) n p n' p') as He.
  destruct (subscript2 slot (m_maker_fns R) n p) as [cur tbl1].
  simpl in *. subst cur.
  destruct (has_target (or_empty (entry (m_maker_fns R) n p))); simpl.
  - exact He.
  - rewrite entry_store2, He. now destruct (same_pair n' p' n p).
Qed.

Lemma add_mutex R n p fn : m_mutex (snd (add slot R n p fn)) = m_mutex R.
Proof.
  unfold add, with_unique_lock. simpl.
  now destruct (subscript2 slot (m_maker_fns R) n p).
Qed.

Lemma add_events R n p fn :
  fst (add slot R n p fn) = [Lock (m_mutex R); Unlock (m_mutex R)].
Proof. reflexivity. Qed.

(** Registering a pair that already holds a callable maker changes nothing. *)
Lemma add_callable_present R n p (g : maker T) fn :
  lookup R n p = Some (target g) -> snd (add slot R n p fn) = R.
Proof.
  unfold lookup, add, with_unique_lock. intros H. simpl.
  rewrite (subscript2_present _ _ _ _ H). simpl. now destruct R.
Qed.

Lemma same_pair_refl n p : same_pair n p n p = true.
Proof. unfold same_pair. now rewrite !String.eqb_refl. Qed.
End TableFacts.

(** ** Lookup *)

Section LookupFacts.
Variable T : Type.
Implicit Types (R : Algo_Registry T) (fn : maker_fn T) (spec : Spec).

Lemma find_maker_events R spec provider :
  fst (find_maker R spec provider) = lookup_events R.
Proof. reflexivity. Qed.

(** With a provider named, the answer is the entry of exactly that pair. *)
Lemma find_maker_explicit R spec provider :
  provider <> "" ->
  snd (find_maker R spec provider) =
  match lookup R (algo_name spec) provider with
  | Some fn => fn
  | None => null_maker
  end.
Proof.
  intros Hp. apply String.eqb_neq in Hp.
  unfold find_maker, with_unique_lock, lookup, entry. simpl.
  destruct (UMap.find (algo_name spec) (m_maker_fns R)) as [[|kv ps]|];
    simpl; [reflexivity | | reflexivity].
  now rewrite Hp.
Qed.

Lemma find_maker_unknown_name R spec provider :
  UMap.find (algo_name spec) (m_maker_fns R) = None ->
  snd (find_maker R spec provider) = null_maker.
Proof.
  intros H. unfold find_maker, with_unique_lock. simpl. now rewrite H.
Qed.

Lemma find_maker_single R spec ps p fn :
  UMap.find (algo_name spec) (m_maker_fns R) = Some ps ->
  UMap.size ps = 1 ->
  UMap.find p ps = Some fn ->
  snd (find_maker R spec "") = fn.
Proof.
  intros Hn Hs Hp. unfold find_maker, with_unique_lock. simpl. rewrite Hn.
  rewrite (UMapFacts.size_one_begin _ p fn ps Hs Hp).
  destruct ps as [|kv ps]; [discriminate|].
  rewrite Hs. reflexivity.
Qed.

Lemma make_unfold R spec provider :
  make R spec provider =
  after (lookup_events R) (try_maker (snd (find_maker R spec provider)) spec).
Proof. reflexivity. Qed.

Lemma try_null_maker spec : try_maker (@null_maker T) spec = ret nullptr.
Proof. reflexivity. Qed.
End LookupFacts.

(** ** Requests that nothing satisfies *)

(** C2.  If the base name of the specification has no entry in the table,
    or if a provider is named and the base name is registered without that
    provider, [find_maker] answers with the maker that returns a null
    pointer and [make] returns that null pointer: no other registered
    provider is used and nothing is thrown. *)
Theorem make_not_available (T : Type) (R : Algo_Registry T) (spec : Spec)
    (provider : string) :
  UMap.find (algo_name spec) (m_maker_fns R) = None \/
  (provider <> "" /\
   exists ps, UMap.find (algo_name spec) (m_maker_fns R) = Some ps /\
              ~ In provider (UMap.keys ps)) ->
  snd (find_maker R spec provider) = null_maker /\
  make R spec provider = (lookup_events R, Normal nullptr).
Proof.
  intros H.
  assert (Hm : snd (find_maker R spec provider) = null_maker).
  { destruct H as [Hn | (Hp & ps & Hn & Hnot)].
    - now apply find_maker_unknown_name.
    - rewrite (find_maker_explicit _ _ _ _ Hp). unfold lookup, entry.
      rewrite Hn. apply UMapFacts.find_None_iff in Hnot. now rewrite Hnot. }
  split; [exact Hm|].
  rewrite make_unfold, Hm, try_null_maker. reflexivity.
Qed.

(** The example of the design document: "Echo" registered under "builtin"
    only, requested from "vendor". *)
Lemma make_not_available_witness :
  let R := snd (add front_slot (new_registry 0) "Echo" "builtin" (labelled "echo")) in
  snd (make R (plain_spec "Echo") "vendor") = Normal nullptr.
Proof.
  intros R.
  refine (f_equal snd (proj2 (make_not_available string R (plain_spec "Echo")
                                "vendor" _))).
  right. split; [discriminate|].
  exists [("builtin", labelled "echo")]. split; [reflexivity|].
  simpl. intros [H|[]]. discriminate H.
Defined.

(** ** One provider, no hint *)

(** C6.  When the base name has exactly one registered provider, whatever
    its name, a request that leaves the provider out gets that provider's
    maker from [find_maker], and [make] runs it. *)
Theorem single_provider_selected_without_hint (T : Type) (R : Algo_Registry T)
    (spec : Spec) (p : string) (fn : maker_fn T) :
  UMap.find (algo_name spec) (m_maker_fns R) = Some [(p, fn)] ->
  find_maker R spec (provider_or_default None) = (lookup_events R, fn) /\
  make_a R spec None = after (lookup_events R) (try_maker fn spec).
Proof.
  intros H.
  assert (Hm : snd (find_maker R spec "") = fn).
  { apply (find_maker_single T R spec [(p, fn)] p fn H); [reflexivity|].
    simpl. now rewrite String.eqb_refl. }
  split.
  - rewrite <- Hm. reflexivity.
  - unfold make_a. rewrite make_unfold. simpl provider_or_default.
    now rewrite Hm.
Qed.

Lemma single_provider_selected_without_hint_witness :
  let R := snd (add back_slot (new_registry 3) "SHA-160" "openssl" (labelled "sha")) in
  make_a R (plain_spec "SHA-160") None = ([Lock 3; Unlock 3], Normal (obj "sha")).
Proof.
  intros R.
  exact (proj2 (single_provider_selected_without_hint string R
                  (plain_spec "SHA-160") "openssl" (labelled "sha") eq_refl)).
Defined.

(** ** Registration handles *)

(** C7.  Constructing a handle from a base name and a maker is one call of
    [add] on the global registry, under "builtin" if no provider is given
    and under the given provider otherwise; the conditional constructor is
    that one call if its condition holds and does nothing if it does not.
    The handle itself carries nothing: the only effect is the registry. *)
Theorem Add_registers_once (slot : string -> list string -> nat) (T : Type)
    (G : Algo_Registry T) (basename provider : string) (fn : maker_fn T)
    (cond : bool) :
  Add slot G basename fn None = add slot G basename "builtin" fn /\
  Add slot G basename fn (Some provider) = add slot G basename provider fn /\
  fst (Add slot G basename fn None) = lookup_events G /\
  Add_cond slot G cond basename fn provider =
    (if cond then add slot G basename provider fn else ([], G)) /\
  (fst (Add_cond slot G cond basename fn provider) = lookup_events G <->
   cond = true).
Proof.
  repeat split.
  - destruct cond; [reflexivity | discriminate].
  - now intros ->.
Qed.

Lemma Add_registers_once_witness :
  let G := new_registry 1 in
  lookup (snd (Add front_slot G "MD5" (labelled "md5") None)) "MD5" "builtin"
    = Some (labelled "md5") /\
  Add_cond front_slot G false "MD5" (labelled "md5") "x86" = ([], G) /\
  fst (Add_cond front_slot G true "MD5" (labelled "md5") "x86") = [Lock 1; Unlock 1].
Proof.
  intros G.
  pose proof (Add_registers_once front_slot string G "MD5" "x86" (labelled "md5")) as H.
  split; [|split].
  - destruct (H true) as (-> & _). reflexivity.
  - destruct (H false) as (_ & _ & _ & -> & _). reflexivity.
  - destruct (H true) as (_ & _ & _ & _ & Hiff). exact (proj2 Hiff eq_refl).
Defined.

(** ** The empty provider name *)

Section EmptyProvider.
Variable slot : string -> list string -> nat.
Variable T : Type.
Implicit Types (R G : Algo_Registry T) (fn : maker_fn T) (spec : Spec).

Lemma subscript2_absent (tbl : table T) n p :
  UMap.find n tbl = None ->
  subscript2 slot tbl n p =
  (empty_function,
   UMap.assign n [(p, empty_function)] (UMap.emplace slot n [] tbl)).
Proof.
  intros Hn. unfold subscript2, UMap.subscript. rewrite Hn. simpl.
  unfold UMap.emplace at 1. now rewrite firstn_nil, skipn_nil.
Qed.

Lemma store2_single (tbl : table T) n p fn0 fn :
  UMap.find n tbl = Some [(p, fn0)] ->
  store2 slot tbl n p fn = UMap.assign n [(p, fn)] tbl.
Proof.
  intros Hn. unfold store2, UMap.subscript. rewrite Hn. simpl.
  rewrite String.eqb_refl. simpl. now rewrite String.eqb_refl.
Qed.

(** The first registration under a base name creates its inner map, with
    the one element registered. *)
Lemma add_fresh_name R n p fn :
  UMap.find n (m_maker_fns R) = None ->
  UMap.find n (m_maker_fns (snd (add slot R n p fn))) = Some [(p, fn)].
Proof.
  intros Hn. unfold add, with_unique_lock.
  rewrite (subscript2_absent _ n p Hn). simpl.
  assert (H1 : UMap.find n (UMap.assign n [(p, @empty_function (maker T))]
                              (UMap.emplace slot n [] (m_maker_fns R)))
               = Some [(p, empty_function)]).
  { rewrite UMapFacts.find_assign, String.eqb_refl.
    rewrite (UMapFacts.find_emplace slot _ n n [] _ Hn), String.eqb_refl.
    reflexivity. }
  rewrite (store2_single _ n p empty_function fn H1).
  rewrite UMapFacts.find_assign, String.eqb_refl. now rewrite H1.
Qed.
End EmptyProvider.

(** Without a provider, the answer is the maker of the first element of
    the inner map, whatever its provider name is. *)
Lemma find_maker_hintless_first (T : Type) (R : Algo_Registry T) (spec : Spec)
    (k : string) (f : maker_fn T) (rest : UMap.t (maker_fn T)) :
  UMap.find (algo_name spec) (m_maker_fns R) = Some ((k, f) :: rest) ->
  snd (find_maker R spec "") = f.
Proof.
  intros H. unfold find_maker, with_unique_lock. cbn [snd]. rewrite H.
  destruct rest; reflexivity.
Qed.



(** ** Registering a pair twice *)

(** An empty [std::function] is a value of type [maker_fn] like any other,
    and [add] tells "not registered yet" by the emptiness of the stored
    function: after ["AES-128"]/["builtin"] is registered with an empty
    function, a second registration of the pair is not ignored.  It changes
    the table, and [make] then runs the second maker. *)
Lemma second_registration_replaces_empty_function :
  let R1 := snd (add front_slot (new_registry 0) "AES-128" "builtin" empty_function) in
  let R2 := snd (add front_slot R1 "AES-128" "builtin" (labelled "second")) in
  snd (providers R1 "AES-128") = ["builtin"] /\
  snd (find_maker R1 (plain_spec "AES-128") "builtin") = empty_function /\
  snd (find_maker R2 (plain_spec "AES-128") "builtin") = labelled "second" /\
  R2 <> R1 /\
  snd (make R2 (plain_spec "AES-128") "builtin") = Normal (obj "second").
Proof.
  intros R1 R2. repeat split.
  intros H. apply (f_equal (fun R => lookup R "AES-128" "builtin")) in H.
  discriminate H.
Qed.

(** C4.  When a pair holds no callable maker yet and is registered
    with a callable maker [g1], a further registration of the pair, with
    any maker, leaves the registry as it is; the pair still maps to [g1],
    [find_maker] naming that provider answers [g1] and [make] runs it.
    ([add] has no way to fail: it returns the registry and nothing else.) *)
Theorem first_callable_registration_wins (slot : string -> list string -> nat)
    (T : Type) (R : Algo_Registry T) (name provider : string) (g1 : maker T)
    (fn2 : maker_fn T) (spec : Spec) :
  lookup R name provider = None \/ lookup R name provider = Some empty_function ->
  let R1 := snd (add slot R name provider (target g1)) in
  let R2 := snd (add slot R1 name provider fn2) in
  add slot R1 name provider fn2 = (lookup_events R1, R1) /\
  lookup R2 name provider = Some (target g1) /\
  (algo_name spec = name -> provider <> "" ->
   snd (find_maker R2 spec provider) = target g1 /\
   make R2 spec provider = after (lookup_events R) (try_maker (target g1) spec)).
Proof.
  intros H0 R1 R2.
  assert (H1 : lookup R1 name provider = Some (target g1)).
  { subst R1. rewrite lookup_add, same_pair_refl.
    destruct H0 as [-> | ->]; reflexivity. }
  assert (H2 : R2 = R1) by (apply (add_callable_present slot T R1 _ _ g1), H1).
  split; [|split].
  - rewrite (surjective_pairing (add slot R1 name provider fn2)).
    fold R2. now rewrite H2.
  - now rewrite H2.
  - intros <- Hp. rewrite H2.
    assert (Hf : snd (find_maker R1 spec provider) = target g1)
      by now rewrite find_maker_explicit, H1.
    split; [exact Hf|].
    rewrite make_unfold, Hf. unfold lookup_events. subst R1.
    now rewrite add_mutex.
Qed.

Lemma first_callable_registration_wins_witness :
  let R1 := snd (add back_slot (new_registry 0) "AES-128" "builtin" (labelled "first")) in
  let R2 := snd (add back_slot R1 "AES-128" "builtin" (labelled "second")) in
  lookup R2 "AES-128" "builtin" = Some (labelled "first") /\
  make R2 (plain_spec "AES-128") "builtin" = ([Lock 0; Unlock 0], Normal (obj "first")).
Proof.
  intros R1 R2.
  destruct (first_callable_registration_wins back_slot string (new_registry 0)
              "AES-128" "builtin" (fun _ => ret (obj "first")) (labelled "second")
              (plain_spec "AES-128") (or_introl eq_refl)) as (_ & Hl & Hm).
  split; [exact Hl|].
  apply Hm; [reflexivity | discriminate].
Defined.

(** ** A maker that throws *)

(** The handler of [make] is for [std::exception&].  A maker that throws a
    value of another type is not caught: what leaves [make] is that value
    and not a [std::runtime_error], and it does not carry the canonical
    form of the specification. *)
Lemma foreign_exception_leaves_make_unwrapped :
  let R := snd (add front_slot (new_registry 0) "RC4" "builtin" (throwing (foreign 7))) in
  let spec := mkSpec "RC4" ["40"] "RC4(40)" in
  snd (make R spec "builtin") = Raise (foreign 7) /\
  what (foreign 7) = None.
Proof. split; reflexivity. Qed.

(** C3.  When the selected maker throws an exception derived from
    [std::exception] (the [std::bad_function_call] of an empty function
    included), [make] throws one [std::runtime_error] whose message is
    "Creating '", the canonical form of the specification, "' failed: " and
    the [what()] of the cause.  A thrown value of any other type leaves
    [make] as it is. *)
Theorem make_wraps_std_exception (T : Type) (R : Algo_Registry T) (spec : Spec)
    (provider : string) (tr : list event) (e : exception) :
  invoke (snd (find_maker R spec provider)) spec = (tr, Raise e) ->
  (forall w, what e = Some w ->
     make R spec provider =
     (lookup_events R ++ tr,
      Raise (runtime_error ("Creating '" ++ as_string spec ++ "' failed: " ++ w)))) /\
  (what e = None ->
     make R spec provider = (lookup_events R ++ tr, Raise e)).
Proof.
  intros Hi. rewrite make_unfold. unfold try_maker, try_catch_std.
  rewrite Hi. split.
  - intros w ->. unfold after. simpl. now rewrite app_nil_r.
  - intros ->. reflexivity.
Qed.

Lemma make_wraps_std_exception_witness :
  let R := snd (add front_slot (new_registry 0) "RC4" "builtin"
                  (throwing (std_exception "Invalid key length"))) in
  make R (mkSpec "RC4" ["40"] "RC4(40)") "builtin" =
  ([Lock 0; Unlock 0],
   Raise (runtime_error "Creating 'RC4(40)' failed: Invalid key length")).
Proof.
  intros R.
  exact (proj1 (make_wraps_std_exception string R (mkSpec "RC4" ["40"] "RC4(40)")
                  "builtin" [] (std_exception "Invalid key length") eq_refl)
               "Invalid key length" eq_refl).
Defined.

(** An empty function that gets selected is such a failing maker. *)
Lemma make_empty_function_fails :
  let R : Algo_Registry string :=
    snd (add front_slot (new_registry 0) "RC4" "builtin" empty_function) in
  snd (make R (plain_spec "RC4") "builtin") =
  Raise (runtime_error "Creating 'RC4' failed: bad_function_call").
Proof. reflexivity. Qed.

(** ** The table over the life of a registry *)

Lemma same_pair_true n' p' n p :
  same_pair n' p' n p = true -> n' = n /\ p' = p.
Proof.
  unfold same_pair. intros H. apply andb_prop in H as [H1 H2].
  now apply String.eqb_eq in H1, H2.
Qed.

(** An entry that exists, holding an empty function, is replaced by the
    next registration of its pair: the table does not keep every entry as
    it was. *)
Lemma registration_overwrites_empty_entry :
  let R1 : Algo_Registry string :=
    snd (add back_slot (new_registry 0) "SHA-160" "simd" empty_function) in
  let R2 := snd (add back_slot R1 "SHA-160" "simd" (labelled "sha")) in
  lookup R1 "SHA-160" "simd" = Some empty_function /\
  lookup R2 "SHA-160" "simd" = Some (labelled "sha") /\
  lookup R2 "SHA-160" "simd" <> lookup R1 "SHA-160" "simd".
Proof.
  intros R1 R2. repeat split. discriminate.
Qed.

Section GrowOnly.
Variable slot : string -> list string -> nat.
Variable T : Type.
Implicit Types (R : Algo_Registry T) (c : call T).

(** What one call leaves of the registry it was made on. *)
Lemma step_keeps R c :
  m_mutex (snd (step slot R c)) = m_mutex R /\
  (forall n p, lookup R n p <> None -> lookup (snd (step slot R c)) n p <> None) /\
  (forall n p g, lookup R n p = Some (target g) ->
                 lookup (snd (step slot R c)) n p = Some (target g)) /\
  (is_add c = false -> snd (step slot R c) = R).
Proof.
  destruct c as [name provider fn | basename | spec provider].
  - change (snd (step slot R (Call_add name provider fn)))
      with (snd (add slot R name provider fn)).
    split; [apply add_mutex|]. split; [|split; [|discriminate]].
    + intros n p H. rewrite lookup_add.
      destruct (same_pair n p name provider); [discriminate | exact H].
    + intros n p g H. rewrite lookup_add.
      destruct (same_pair n p name provider) eqn:E; [|exact H].
      apply same_pair_true in E as [-> ->]. now rewrite H.
  - repeat split; auto.
  - repeat split; auto.
Qed.

Lemma run_keeps R (cs : list (call T)) :
  m_mutex (run slot R cs) = m_mutex R /\
  (forall n p, lookup R n p <> None -> lookup (run slot R cs) n p <> None) /\
  (forall n p g, lookup R n p = Some (target g) ->
                 lookup (run slot R cs) n p = Some (target g)) /\
  run slot R cs = run slot R (filter (@is_add T) cs).
Proof.
  revert R. induction cs as [|c cs IH]; intros R; simpl.
  - repeat split; auto.
  - destruct (step_keeps R c) as (Hm & Hk & Hc & Hr).
    destruct (IH (snd (step slot R c))) as (Hm' & Hk' & Hc' & Hr').
    split; [congruence|]. split; [|split].
    + intros n p H. now apply Hk', Hk.
    + intros n p g H. now apply Hc', Hc.
    + destruct (is_add c) eqn:E; simpl.
      * exact Hr'.
      * rewrite (Hr eq_refl) in Hr'. rewrite (Hr eq_refl). exact Hr'.
Qed.
End GrowOnly.

(** C8.  Over any sequence of calls on a registry: a pair that has
    an entry keeps an entry, a pair that holds a callable maker keeps that
    maker, and the registry at the end is the one the [add] calls alone
    produce.  [make] and [providers] return the registry they were given,
    whatever [make] returns or throws. *)
Theorem table_only_grows (slot : string -> list string -> nat) (T : Type)
    (R : Algo_Registry T) (cs : list (call T)) :
  (forall n p, lookup R n p <> None -> lookup (run slot R cs) n p <> None) /\
  (forall n p g, lookup R n p = Some (target g) ->
                 lookup (run slot R cs) n p = Some (target g)) /\
  run slot R cs = run slot R (filter is_add cs) /\
  (forall spec provider, snd (step slot R (Call_make spec provider)) = R) /\
  (forall basename, snd (step slot R (Call_providers basename)) = R).
Proof.
  destruct (run_keeps slot T R cs) as (_ & Hk & Hc & Hr).
  repeat split; assumption.
Qed.

Lemma table_only_grows_witness :
  let R := snd (add front_slot (new_registry 0) "Echo" "builtin" (labelled "echo")) in
  let cs := [Call_make (plain_spec "Echo") "vendor";
             Call_add "Echo" "builtin" (throwing (runtime_error "broken"));
             Call_make (plain_spec "Nothing") "";
             Call_add "Echo" "vendor" (throwing (runtime_error "broken"));
             Call_make (plain_spec "Echo") "vendor";
             Call_providers "Echo"] in
  lookup (run front_slot R cs) "Echo" "builtin" = Some (labelled "echo") /\
  lookup (run front_slot R cs) "Echo" "builtin" <> None.
Proof.
  intros R cs.
  destruct (table_only_grows front_slot string R cs) as (Hk & Hc & _).
  split.
  - apply Hc. reflexivity.
  - apply Hk. discriminate.
Defined.

(** ** The adapter for a wrapped algorithm *)

(** What [make_new_T_1X] computes, for every specification. *)
Lemma make_new_T_1X_unfold (T X : Type) (T_wrapping : ptr X -> T)
    (Spec_of_string : string -> outcome Spec) (RX : Algo_Registry X)
    (spec : Spec) :
  make_new_T_1X T_wrapping Spec_of_string RX spec =
  (a <- lift (arg spec 0) ;;
   s <- lift (Spec_of_string a) ;;
   p <- make RX s "" ;;
   match p with
   | nullptr => raise (runtime_error a)
   | obj x => ret (obj (T_wrapping (obj x)))
   end).
Proof.
  unfold make_new_T_1X, make_new_T_1X_scope.
  destruct (arg spec 0) as [a|e]; cbn [lift bind]; [|reflexivity].
  destruct (Spec_of_string a) as [s|e]; cbn [lift bind app]; [|reflexivity].
  cbn [provider_or_default].
  destruct (make RX s "") as [tr [[|x]|e]]; cbn; now rewrite ?app_nil_r.
Qed.

(** C5.  For every specification, [make_new_T_1X] constructs the
    specification named by argument 0 through the registry of [X], with no
    provider.  If that yields a null pointer, it throws a
    [std::runtime_error] whose message is the argument itself, and
    constructs no [T].  If it yields an object, the result is the [T]
    constructed from that object, and the local [unique_ptr] has given the
    object up: its destructor deletes nothing, so the [T] is the only
    owner.  In no case is the result a null pointer. *)
Theorem make_new_T_1X_resolves_dependency (T X : Type) (T_wrapping : ptr X -> T)
    (Spec_of_string : string -> outcome Spec) (RX : Algo_Registry X)
    (spec : Spec) :
  (forall a s, arg spec 0 = Normal a -> Spec_of_string a = Normal s ->
     (forall tr, make RX s "" = (tr, Normal nullptr) ->
        make_new_T_1X T_wrapping Spec_of_string RX spec =
        (tr, Raise (runtime_error a))) /\
     (forall tr x, make RX s "" = (tr, Normal (obj x)) ->
        make_new_T_1X T_wrapping Spec_of_string RX spec =
        (tr, Normal (obj (T_wrapping (obj x)))) /\
        exists x', make_new_T_1X_scope T_wrapping Spec_of_string RX spec =
                   (tr, Normal (obj (T_wrapping (obj x)), x')) /\
                   deleted_by_destructor x' = [])) /\
  (forall tr, make_new_T_1X T_wrapping Spec_of_string RX spec
              <> (tr, Normal nullptr)).
Proof.
  split.
  - intros a s Ha Hs. rewrite make_new_T_1X_unfold.
    unfold make_new_T_1X_scope. rewrite Ha. cbn [bind lift].
    rewrite Hs. cbn [bind lift app provider_or_default]. split.
    + intros tr ->. cbn. now rewrite !app_nil_r.
    + intros tr x ->. cbn. rewrite !app_nil_r. split; [reflexivity|].
      exists nullptr. split; reflexivity.
  - intros tr. rewrite make_new_T_1X_unfold.
    destruct (arg spec 0) as [a|e]; cbn [lift bind]; [|discriminate].
    destruct (Spec_of_string a) as [s|e]; cbn [lift bind app]; [|discriminate].
    destruct (make RX s "") as [tr' [[|x]|e]]; cbn; discriminate.
Qed.

(** A stream cipher built on a block cipher: "CTR-BE(AES-128)" when the
    registry of block ciphers knows "AES-128", and "CTR-BE(Twofish)" when
    it does not know "Twofish". *)
Lemma make_new_T_1X_resolves_dependency_witness :
  let RX := snd (add front_slot (new_registry 1) "AES-128" "builtin" (labelled "aes")) in
  make_new_T_1X (over "ctr") bare_name RX
      (mkSpec "CTR-BE" ["AES-128"] "CTR-BE(AES-128)") =
    ([Lock 1; Unlock 1], Normal (obj "ctr over aes")) /\
  make_new_T_1X (over "ctr") bare_name RX
      (mkSpec "CTR-BE" ["Twofish"] "CTR-BE(Twofish)") =
    ([Lock 1; Unlock 1], Raise (runtime_error "Twofish")).
Proof.
  intros RX. split.
  - apply (proj1 (make_new_T_1X_resolves_dependency string string (over "ctr")
                    bare_name RX (mkSpec "CTR-BE" ["AES-128"] "CTR-BE(AES-128)"))
             "AES-128" (plain_spec "AES-128") eq_refl eq_refl).
    reflexivity.
  - apply (proj1 (make_new_T_1X_resolves_dependency string string (over "ctr")
                    bare_name RX (mkSpec "CTR-BE" ["Twofish"] "CTR-BE(Twofish)"))
             "Twofish" (plain_spec "Twofish") eq_refl eq_refl).
    reflexivity.
Defined.

(** Reached through the registry of the outer family, the missing
    dependency surfaces as the failure of [make], named in its message. *)
Lemma missing_dependency_through_make :
  let RX : Algo_Registry string := new_registry 1 in
  let RT := snd (add front_slot (new_registry 0) "CTR-BE" "builtin"
                   (target (make_new_T_1X (over "ctr") bare_name RX))) in
  make RT (mkSpec "CTR-BE" ["AES-128"] "CTR-BE(AES-128)") "" =
  ([Lock 0; Unlock 0; Lock 1; Unlock 1],
   Raise (runtime_error "Creating 'CTR-BE(AES-128)' failed: AES-128")).
Proof. reflexivity. Qed.

(** ** The mutex around the lookup *)

Lemma run_locks_app held tr1 tr2 :
  run_locks held (tr1 ++ tr2) =
  match run_locks held tr1 with
  | Some held' => run_locks held' tr2
  | None => None
  end.
Proof.
  revert held. induction tr1 as [|[m|m] tr1 IH]; intros held; simpl.
  - reflexivity.
  - destruct (existsb (Nat.eqb m) held); [reflexivity | apply IH].
  - apply IH.
Qed.

Lemma existsb_eqb_false m held : ~ In m held -> existsb (Nat.eqb m) held = false.
Proof.
  intros H. destruct (existsb (Nat.eqb m) held) eqn:E; [|reflexivity].
  apply existsb_exists in E as (x & Hx & Hm).
  apply Nat.eqb_eq in Hm. subst x. contradiction.
Qed.

(** Taking a free mutex and giving it back leaves what the thread holds. *)
Lemma run_locks_lookup held m :
  ~ In m held -> run_locks held [Lock m; Unlock m] = Some held.
Proof.
  intros H. simpl. rewrite (existsb_eqb_false _ _ H).
  destruct (Nat.eq_dec m m) as [_|N]; [|now elim N].
  now rewrite notin_remove.
Qed.

Lemma try_maker_events (T : Type) (fn : maker_fn T) spec :
  fst (try_maker fn spec) = fst (invoke fn spec).
Proof.
  unfold try_maker, try_catch_std.
  destruct (invoke fn spec) as [tr [p|e]]; [reflexivity|].
  destruct (what e); simpl; [apply app_nil_r | reflexivity].
Qed.

(** C9.  In a call of [make], the mutex of the registry is taken and given
    back by the lookup, and everything the selected maker does comes after
    that: the events of [make] are the lock, the unlock, and then the
    events of the maker.  For a thread that does not hold the mutex when it
    calls [make], the maker therefore runs in the very lock state the
    thread had before the call, and [make] blocks on a mutex the thread
    holds only if the maker does; a maker that calls back into the same
    registry finds its mutex free. *)
Theorem make_releases_lock_before_maker (T : Type) (R : Algo_Registry T)
    (spec : Spec) (provider : string) :
  fst (find_maker R spec provider) = [Lock (m_mutex R); Unlock (m_mutex R)] /\
  fst (make R spec provider) =
    [Lock (m_mutex R); Unlock (m_mutex R)]
    ++ fst (invoke (snd (find_maker R spec provider)) spec) /\
  (forall held, ~ In (m_mutex R) held ->
     run_locks held (fst (find_maker R spec provider)) = Some held /\
     run_locks held (fst (make R spec provider)) =
     run_locks held (fst (invoke (snd (find_maker R spec provider)) spec))).
Proof.
  assert (He : fst (make R spec provider) =
               [Lock (m_mutex R); Unlock (m_mutex R)]
               ++ fst (invoke (snd (find_maker R spec provider)) spec)).
  { rewrite make_unfold. unfold after, lookup_events. cbn [fst].
    now rewrite try_maker_events. }
  split; [reflexivity|]. split; [exact He|].
  intros held H. split; [now apply run_locks_lookup|].
  now rewrite He, run_locks_app, (run_locks_lookup _ _ H).
Qed.

(** A hash that wraps another hash of the same family: its maker calls
    [make] on the registry that is running it, and gets the mutex. *)
Lemma make_releases_lock_before_maker_witness :
  let R0 := snd (add front_slot (new_registry 0) "SHA-160" "builtin" (labelled "sha")) in
  let R := snd (add front_slot R0 "Parallel" "builtin"
                  (target (make_new_T_1X (over "parallel") bare_name R0))) in
  let spec := mkSpec "Parallel" ["SHA-160"] "Parallel(SHA-160)" in
  fst (make R spec "") = [Lock 0; Unlock 0; Lock 0; Unlock 0] /\
  run_locks [] (fst (make R spec "")) = Some [].
Proof.
  intros R0 R spec.
  destruct (make_releases_lock_before_maker string R spec "") as (_ & He & Hl).
  split.
  - rewrite He. reflexivity.
  - destruct (Hl [] (fun H => H)) as (_ & ->). reflexivity.
Defined.

(** Had the lock been kept while the maker ran, that maker would have
    blocked on it. *)
Lemma lock_kept_across_maker_blocks :
  run_locks [] [Lock 0; Lock 0; Unlock 0; Unlock 0] = None.
Proof. reflexivity. Qed.

(** ** Several providers, no hint *)

Lemma labelled_inj a b : labelled a = labelled b -> a = b.
Proof.
  intros H.
  apply (f_equal (fun fn => snd (invoke fn (plain_spec "")))) in H.
  now injection H.
Qed.

(** C1.  The design document asks for the highest-weighted provider,
    ties going to the smaller name.  [find_maker] does not consult
    [static_provider_weight]: with two or more providers and no hint it
    answers with the first element of the inner map in iteration order.
    In a table that puts new keys first, after "hardware" and then
    "builtin" are registered for "AES-128", any weight that prefers
    "hardware" makes the rule of the document select "hardware", while
    [find_maker] answers with the maker of "builtin" and [make] returns
    its object.  Registered in the other order, the same two providers give
    the other answer: the choice follows the order of registration. *)
Theorem hintless_choice_ignores_weight (weight : string -> nat) :
  weight "builtin" < weight "hardware" ->
  let R1 := snd (add front_slot (new_registry 0) "AES-128" "hardware"
                   (labelled "hardware AES")) in
  let R := snd (add front_slot R1 "AES-128" "builtin" (labelled "software AES")) in
  let R1' := snd (add front_slot (new_registry 0) "AES-128" "builtin"
                    (labelled "software AES")) in
  let R' := snd (add front_slot R1' "AES-128" "hardware" (labelled "hardware AES")) in
  snd (providers R "AES-128") = ["builtin"; "hardware"] /\
  spec_selected_provider weight (snd (providers R "AES-128")) = Some "hardware" /\
  lookup R "AES-128" "hardware" = Some (labelled "hardware AES") /\
  snd (find_maker R (plain_spec "AES-128") "") = labelled "software AES" /\
  snd (make_a R (plain_spec "AES-128") None) = Normal (obj "software AES") /\
  (forall n p, lookup R' n p = lookup R n p) /\
  snd (make_a R' (plain_spec "AES-128") None) = Normal (obj "hardware AES").
Proof.
  intros Hw R1 R R1' R'.
  split; [reflexivity|]. split.
  - assert (E : (weight "hardware" <? weight "builtin")%nat = false)
      by (apply Nat.ltb_ge; lia).
    assert (E' : (weight "hardware" =? weight "builtin")%nat = false)
      by (apply Nat.eqb_neq; lia).
    cbn. unfold spec_prefers. rewrite E, E'. reflexivity.
  - repeat split.
    intros n p. subst R R' R1 R1'. rewrite !lookup_add.
    unfold same_pair.
    destruct (String.eqb_spec n "AES-128") as [->|]; simpl; [|reflexivity].
    destruct (String.eqb_spec p "builtin") as [Hb|Hb];
      destruct (String.eqb_spec p "hardware") as [Hh|Hh]; try reflexivity.
    rewrite Hb in Hh. discriminate Hh.
Qed.

Lemma hintless_choice_ignores_weight_witness :
  let weight := fun p => if String.eqb p "hardware" then 2 else 1 in
  let R1 := snd (add front_slot (new_registry 0) "AES-128" "hardware"
                   (labelled "hardware AES")) in
  let R := snd (add front_slot R1 "AES-128" "builtin" (labelled "software AES")) in
  spec_selected_provider weight (snd (providers R "AES-128")) = Some "hardware" /\
  snd (make_a R (plain_spec "AES-128") None) = Normal (obj "software AES").
Proof.
  intros weight R1 R.
  assert (Hw : weight "builtin" < weight "hardware") by (cbn; lia).
  destruct (hintless_choice_ignores_weight weight Hw) as (_ & Hs & _ & _ & Hm & _).
  split; [exact Hs | exact Hm].
Defined.

(** The same holds in every hash table, wherever it puts its keys: once
    the two providers are registered, some weight function makes the rule
    of the design document select a provider other than the one whose
    maker [find_maker] answers with. *)
Lemma hintless_choice_not_by_weight (slot : string -> list string -> nat) :
  let R1 := snd (add slot (new_registry 0) "AES-128" "hardware"
                   (labelled "hardware AES")) in
  let R := snd (add slot R1 "AES-128" "builtin" (labelled "software AES")) in
  exists (weight : string -> nat) (best : string) (fn : maker_fn string),
    spec_selected_provider weight (snd (providers R "AES-128")) = Some best /\
    lookup R "AES-128" best = Some fn /\
    snd (find_maker R (plain_spec "AES-128") "") <> fn.
Proof.
  intros R1 R.
  assert (H1 : UMap.find "AES-128" (m_maker_fns R1)
               = Some [("hardware", labelled "hardware AES")])
    by (apply add_fresh_name; reflexivity).
  assert (HR : UMap.find "AES-128" (m_maker_fns R) =
               Some (if Nat.eqb (slot "builtin" ["hardware"]) 0
                     then [("builtin", labelled "software AES");
                           ("hardware", labelled "hardware AES")]
                     else [("hardware", labelled "hardware AES");
                           ("builtin", labelled "software AES")])).
  { subst R. unfold add, with_unique_lock. cbn [snd m_maker_fns].
    destruct (subscript2_unfold slot string (m_maker_fns R1) "AES-128" "builtin")
      as (E1 & _ & _).
    rewrite E1, H1. clear E1. cbn [UMap.find String.eqb Ascii.eqb Bool.eqb
      or_empty has_target negb].
    match goal with
    | |- context [store2 slot ?t _ _ _] => set (tbl1 := t)
    end.
    destruct (subscript2_unfold slot string tbl1 "AES-128" "builtin")
      as (_ & E2 & _).
    rewrite E2. clear E2.
    assert (Ht : UMap.find "AES-128" tbl1 =
                 Some (snd (UMap.subscript slot empty_function "builtin"
                              [("hardware", labelled "hardware AES")]))).
    { subst tbl1. rewrite UMapFacts.find_assign.
      rewrite UMapFacts.find_subscript, H1. reflexivity. }
    cbn [m_maker_fns].
    rewrite Ht, UMapFacts.find_assign, UMapFacts.find_subscript, Ht.
    cbn [String.eqb Ascii.eqb Bool.eqb].
    unfold UMap.subscript at 2. cbn [UMap.find String.eqb Ascii.eqb Bool.eqb snd].
    unfold UMap.emplace. cbn [UMap.keys map fst].
    destruct (slot "builtin" ["hardware"]) as [|i]; cbn.
    - reflexivity.
    - rewrite firstn_nil, skipn_nil. cbn. reflexivity. }
  unfold providers, with_unique_lock, find_maker, lookup, entry.
  cbn [snd algo_name plain_spec]. rewrite HR.
  destruct (Nat.eqb (slot "builtin" ["hardware"]) 0).
  - exists (fun p => if String.eqb p "hardware" then 1 else 0),
      "hardware", (labelled "hardware AES").
    repeat split. cbn. intros H. apply labelled_inj in H. discriminate H.
  - exists (fun p => if String.eqb p "builtin" then 1 else 0),
      "builtin", (labelled "software AES").
    repeat split. cbn. intros H. apply labelled_inj in H. discriminate H.
Qed.

(** * Further properties of the registry *)

(** ** What [add] does to the table, exactly *)

Section AddStructure.
Variable slot : string -> list string -> nat.
Variable T : Type.
Implicit Types (R : Algo_Registry T) (fn : maker_fn T).

Lemma find_firstn_None (V : Type) k i (m : UMap.t V) :
  UMap.find k m = None -> UMap.find k (firstn i m) = None.
Proof.
  intros H. rewrite <- (firstn_skipn i m), UMapFacts.find_app in H.
  now destruct (UMap.find k (firstn i m)).
Qed.

Lemma assign_app_absent (V : Type) k (v : V) (m1 m2 : UMap.t V) :
  UMap.find k m1 = None ->
  UMap.assign k v (m1 ++ m2) = m1 ++ UMap.assign k v m2.
Proof.
  induction m1 as [|[k0 v0] m1 IH]; simpl; [reflexivity|].
  destruct (String.eqb k k0); [discriminate|].
  intros H. now rewrite IH.
Qed.

Lemma assign_emplace (V : Type) k (d v : V) (m : UMap.t V) :
  UMap.find k m = None ->
  UMap.assign k v (UMap.emplace slot k d m) = UMap.emplace slot k v m.
Proof.
  intros H. unfold UMap.emplace.
  rewrite assign_app_absent by now apply find_firstn_None.
  simpl. now rewrite String.eqb_refl.
Qed.

Lemma keys_emplace (V : Type) k (v : V) (m : UMap.t V) :
  UMap.keys (UMap.emplace slot k v m) =
  firstn (slot k (UMap.keys m)) (UMap.keys m)
  ++ k :: skipn (slot k (UMap.keys m)) (UMap.keys m).
Proof.
  unfold UMap.emplace, UMap.keys.
  now rewrite map_app, firstn_map, skipn_map.
Qed.

Lemma NoDup_insert (A : Type) (a : A) i (l : list A) :
  ~ In a l -> NoDup l -> NoDup (firstn i l ++ a :: skipn i l).
Proof.
  intros Hn Hd.
  apply (Permutation_NoDup (Permutation_middle (firstn i l) (skipn i l) a)).
  rewrite firstn_skipn. now constructor.
Qed.

(** The inner map of the base name after [add]: unchanged if the pair held
    a callable maker, the new maker written over an empty function, and a
    new element put where the hash table wants it otherwise.  The inner
    maps of the other base names are left alone. *)
Lemma add_inner R n p fn n' :
  UMap.find n' (m_maker_fns (snd (add slot R n p fn))) =
  if String.eqb n' n then
    Some (let inner := match UMap.find n (m_maker_fns R) with
                       | Some i => i
                       | None => []
                       end in
          match UMap.find p inner with
          | Some cur => if has_target cur then inner else UMap.assign p fn inner
          | None => UMap.emplace slot p fn inner
          end)
  else UMap.find n' (m_maker_fns R).
Proof.
  unfold add, with_unique_lock. cbn [snd].
  destruct (subscript2_unfold slot T (m_maker_fns R) n p) as (E1 & _ & H1).
  cbv zeta in E1, H1. rewrite E1. clear E1.
  set (inner := match UMap.find n (m_maker_fns R) with
                | Some i => i | None => [] end) in *.
  set (inner1 := snd (UMap.subscript slot empty_function p inner)).
  set (tbl1 := snd (UMap.subscript slot [] n (m_maker_fns R))) in *.
  set (tblA := UMap.assign n inner1 tbl1).
  assert (HA : forall k, UMap.find k tblA =
                         if String.eqb k n then Some inner1
                         else UMap.find k (m_maker_fns R)).
  { intros k. subst tblA. rewrite UMapFacts.find_assign, H1.
    subst tbl1. rewrite UMapFacts.find_subscript.
    now destruct (String.eqb k n). }
  assert (Hp : UMap.find p inner1 <> None).
  { subst inner1. rewrite UMapFacts.find_subscript, String.eqb_refl.
    discriminate. }
  destruct (has_target (or_empty (UMap.find p inner))) eqn:Ht;
    cbn [negb m_maker_fns].
  - rewrite HA. destruct (String.eqb n' n); [|reflexivity].
    f_equal. cbv zeta. subst inner1. unfold UMap.subscript.
    destruct (UMap.find p inner) as [cur|]; [|discriminate Ht].
    simpl in Ht. now rewrite Ht.
  - destruct (subscript2_unfold slot T tblA n p) as (_ & E2 & _).
    cbv zeta in E2. rewrite E2. clear E2.
    pose proof (HA n) as HAn. rewrite String.eqb_refl in HAn. rewrite HAn.
    rewrite UMapFacts.find_assign, UMapFacts.find_subscript, HAn.
    rewrite String.eqb_refl.
    destruct (String.eqb n' n) eqn:En;
      [|pose proof (HA n') as Hn'; rewrite En in Hn';
        now rewrite UMapFacts.find_subscript, En].
    f_equal. cbv zeta.
    assert (Hs : snd (UMap.subscript slot empty_function p inner1) = inner1).
    { unfold UMap.subscript. now destruct (UMap.find p inner1). }
    rewrite Hs. subst inner1. unfold UMap.subscript.
    destruct (UMap.find p inner) as [cur|] eqn:Ep; cbn [snd].
    + simpl in Ht. now rewrite Ht.
    + now apply assign_emplace.
Qed.

Lemma add_keys R n p fn :
  UMap.keys (m_maker_fns (snd (add slot R n p fn))) =
  match UMap.find n (m_maker_fns R) with
  | Some _ => UMap.keys (m_maker_fns R)
  | None => UMap.keys (UMap.emplace slot n [] (m_maker_fns R))
  end.
Proof.
  unfold add, with_unique_lock. cbn [snd].
  destruct (subscript2_unfold slot T (m_maker_fns R) n p) as (E1 & _ & _).
  cbv zeta in E1. rewrite E1. clear E1.
  match goal with
  | |- context [store2 slot ?t _ _ _] => set (tblA := t)
  end.
  assert (HkA : UMap.keys tblA =
                match UMap.find n (m_maker_fns R) with
                | Some _ => UMap.keys (m_maker_fns R)
                | None => UMap.keys (UMap.emplace slot n [] (m_maker_fns R))
                end).
  { subst tblA. rewrite UMapFacts.keys_assign. unfold UMap.subscript.
    now destruct (UMap.find n (m_maker_fns R)). }
  destruct (negb _); cbn [m_maker_fns]; [|exact HkA].
  destruct (subscript2_unfold slot T tblA n p) as (_ & E2 & H2).
  cbv zeta in E2, H2. rewrite E2, UMapFacts.keys_assign.
  unfold UMap.subscript in H2 |- *.
  destruct (UMap.find n tblA) eqn:E; [exact HkA|].
  cbn [snd] in H2. 
  rewrite (UMapFacts.find_emplace slot _ n n [] tblA E), String.eqb_refl in H2.
  exfalso.
  assert (Hin : UMap.find n tblA <> None).
  { subst tblA. rewrite UMapFacts.find_assign, String.eqb_refl.
    rewrite UMapFacts.find_subscript, String.eqb_refl. discriminate. }
  contradiction.
Qed.
End AddStructure.

(** ** Registration and lookup *)

Section RegistrationFacts.
Variable T : Type.
Implicit Types (R : Algo_Registry T) (fn : maker_fn T) (spec : Spec).

Lemma same_pair_false n' p' n p :
  (n', p') <> (n, p) -> same_pair n' p' n p = false.
Proof.
  intros H. destruct (same_pair n' p' n p) eqn:E; [|reflexivity].
  apply same_pair_true in E as [-> ->]. now elim H.
Qed.




Lemma store2_present slot (tbl : table T) n p fn :
  entry tbl n p = Some fn -> store2 slot tbl n p fn = tbl.
Proof.
  unfold entry, store2.
  destruct (UMap.find n tbl) as [i|] eqn:En; [|discriminate].
  intros Ep. rewrite (UMapFacts.subscript_present slot _ [] n i tbl En).
  rewrite (UMapFacts.subscript_present slot _ empty_function p fn i Ep).
  now rewrite (UMapFacts.assign_same _ p fn i Ep), UMapFacts.assign_same.
Qed.
End RegistrationFacts.

(** X1.  After [add], the pair registered maps to the new maker if it held
    no callable maker before, every other pair maps to what it mapped to
    before, and the mutex of the registry is the same. *)
Theorem registration_then_lookup (slot : string -> list string -> nat)
    (T : Type) (R : Algo_Registry T) (n p : string) (fn : maker_fn T) :
  (lookup R n p = None \/ lookup R n p = Some empty_function ->
   lookup (snd (add slot R n p fn)) n p = Some fn) /\
  (forall n' p', (n', p') <> (n, p) ->
     lookup (snd (add slot R n p fn)) n' p' = lookup R n' p') /\
  m_mutex (snd (add slot R n p fn)) = m_mutex R.
Proof.
  split; [|split].
  - intros H. rewrite lookup_add, same_pair_refl.
    destruct H as [-> | ->]; reflexivity.
  - intros n' p' H. now rewrite lookup_add, same_pair_false.
  - apply add_mutex.
Qed.

Lemma registration_then_lookup_witness :
  let R := snd (add back_slot (new_registry 0) "AES-128" "builtin" (labelled "aes")) in
  let R' := snd (add back_slot R "AES-128" "openssl" (labelled "ossl aes")) in
  lookup R' "AES-128" "openssl" = Some (labelled "ossl aes") /\
  lookup R' "AES-128" "builtin" = lookup R "AES-128" "builtin".
Proof.
  intros R R'.
  destruct (registration_then_lookup back_slot string R "AES-128" "openssl"
              (labelled "ossl aes")) as (Hnew & Hold & _).
  split.
  - apply Hnew. now left.
  - apply Hold. discriminate.
Defined.







(** X5.  Registering the same pair with the same maker twice is the same
    as registering it once, whatever the table held and whatever the maker
    is. *)
Theorem add_idempotent (slot : string -> list string -> nat) (T : Type)
    (R : Algo_Registry T) (n p : string) (fn : maker_fn T) :
  snd (add slot (snd (add slot R n p fn)) n p fn) = snd (add slot R n p fn).
Proof.
  set (R1 := snd (add slot R n p fn)).
  assert (H1 : lookup R1 n p =
               Some (if has_target (or_empty (lookup R n p))
                     then or_empty (lookup R n p) else fn))
    by (subst R1; now rewrite lookup_add, same_pair_refl).
  unfold add at 1, with_unique_lock. cbn [snd].
  unfold lookup in H1. rewrite (subscript2_present slot T _ _ _ _ H1).
  destruct (has_target (or_empty (entry (m_maker_fns R) n p))) eqn:Ht.
  - rewrite Ht. cbn [negb]. now destruct R1.
  - destruct (has_target fn) eqn:Hf; cbn [negb].
    + now destruct R1.
    + rewrite (store2_present T slot _ _ _ _ H1). now destruct R1.
Qed.

(** ** Tables of a registry that started empty *)

Section WellFormedFacts.
Variable slot : string -> list string -> nat.
Variable T : Type.
Implicit Types (R : Algo_Registry T) (fn : maker_fn T).

Lemma find_Some_nonempty (V : Type) k (v : V) (m : UMap.t V) :
  UMap.find k m = Some v -> m <> [].
Proof. destruct m; [discriminate | discriminate]. Qed.

Lemma emplace_nonempty (V : Type) k (v : V) (m : UMap.t V) :
  UMap.emplace slot k v m <> [].
Proof.
  unfold UMap.emplace. intros E. symmetry in E.
  exact (app_cons_not_nil _ _ _ E).
Qed.

Lemma add_well_formed R n p fn :
  well_formed R -> well_formed (snd (add slot R n p fn)).
Proof.
  intros [Hk Hi]. split.
  - rewrite add_keys.
    destruct (UMap.find n (m_maker_fns R)) eqn:En; [exact Hk|].
    rewrite keys_emplace. apply NoDup_insert; [|exact Hk].
    now apply UMapFacts.find_None_iff.
  - intros n' i. rewrite add_inner.
    destruct (String.eqb n' n); [|apply Hi].
    intros [= <-]. cbv zeta.
    destruct (UMap.find n (m_maker_fns R)) as [inner|] eqn:En.
    + destruct (Hi n inner En) as [Hd Hne].
      destruct (UMap.find p inner) as [cur|] eqn:Ep.
      * destruct (has_target cur); [now split|].
        split; [now rewrite UMapFacts.keys_assign|].
        intros E. apply (f_equal UMap.keys) in E.
        rewrite UMapFacts.keys_assign in E.
        destruct inner; [now elim Hne | discriminate E].
      * split; [|apply emplace_nonempty].
        rewrite keys_emplace. apply NoDup_insert; [|exact Hd].
        now apply UMapFacts.find_None_iff.
    + simpl. split; [|apply emplace_nonempty].
      rewrite keys_emplace. simpl. rewrite firstn_nil, skipn_nil.
      simpl. constructor; [intros [] | constructor].
Qed.

Lemma run_well_formed R (cs : list (call T)) :
  well_formed R -> well_formed (run slot R cs).
Proof.
  revert R. induction cs as [|c cs IH]; intros R H; simpl; [exact H|].
  apply IH. destruct c as [name provider fn | basename | spec provider];
    [|exact H..].
  change (well_formed (snd (add slot R name provider fn))).
  now apply add_well_formed.
Qed.
End WellFormedFacts.

(** X6.  In a registry that started empty, whatever was called on it since:
    no base name and no provider of a base name is held twice, and every
    base name in the table has at least one provider.  So the maker that
    [find_maker] answers with, when no provider is named and the base name
    is in the table, is the maker of a registered pair of that base name:
    the fall-back that returns a null pointer is not taken. *)
Theorem registry_stays_well_formed (slot : string -> list string -> nat)
    (T : Type) (mutex : nat) (cs : list (call T)) :
  let R := run slot (new_registry mutex) cs in
  well_formed R /\
  (forall spec, UMap.find (algo_name spec) (m_maker_fns R) <> None ->
     exists p, lookup R (algo_name spec) p = Some (snd (find_maker R spec ""))).
Proof.
  intros R.
  assert (Hwf : well_formed R).
  { apply run_well_formed. split; [constructor | discriminate]. }
  split; [exact Hwf|].
  intros spec Hn. destruct Hwf as [_ Hi].
  destruct (UMap.find (algo_name spec) (m_maker_fns R)) as [i|] eqn:En;
    [|now elim Hn].
  destruct (Hi _ i En) as [_ Hne].
  destruct i as [|[k f] rest]; [now elim Hne|].
  exists k. rewrite (find_maker_hintless_first T R spec k f rest En).
  unfold lookup, entry. rewrite En. cbn [UMap.find].
  now rewrite String.eqb_refl.
Qed.

Lemma registry_stays_well_formed_witness :
  let cs := [Call_add "AES-128" "builtin" (labelled "a");
             Call_make (plain_spec "AES-128") "";
             Call_add "AES-128" "builtin" (labelled "b");
             Call_add "AES-128" "openssl" empty_function] in
  let R := run back_slot (new_registry 0) cs in
  exists p, lookup R "AES-128" p = Some (snd (find_maker R (plain_spec "AES-128") "")).
Proof.
  intros cs R.
  apply (proj2 (registry_stays_well_formed back_slot string 0 cs)
           (plain_spec "AES-128")).
  discriminate.
Defined.

(** X9.  [find_maker] answers with the maker that returns a null pointer
    or with a maker registered under the base name of the specification,
    and, when a provider is named, under that provider: never with the
    maker of another base name, nor of another provider than the one
    named. *)
Theorem find_maker_answers_registered_entry (T : Type) (R : Algo_Registry T)
    (spec : Spec) (provider : string) :
  snd (find_maker R spec provider) = null_maker \/
  exists p, (provider <> "" -> p = provider) /\
            lookup R (algo_name spec) p = Some (snd (find_maker R spec provider)).
Proof.
  destruct (String.eqb_spec provider "") as [->|Hp].
  - destruct (UMap.find (algo_name spec) (m_maker_fns R))
      as [[|[k f] rest]|] eqn:En.
    + left. unfold find_maker, with_unique_lock. cbn [snd]. now rewrite En.
    + right. exists k. split; [intros H; now elim H|].
      rewrite (find_maker_hintless_first T R spec k f rest En).
      unfold lookup, entry. rewrite En. cbn [UMap.find].
      now rewrite String.eqb_refl.
    + left. now apply find_maker_unknown_name.
  - rewrite (find_maker_explicit T R spec provider Hp).
    destruct (lookup R (algo_name spec) provider) as [fn|] eqn:E.
    + right. exists provider. now split.
    + now left.
Qed.

Lemma find_maker_answers_registered_entry_witness :
  let R := snd (add front_slot (new_registry 0) "AES-128" "builtin" (labelled "aes")) in
  snd (find_maker R (plain_spec "AES-128") "builtin") = null_maker \/
  exists p, ("builtin" <> "" -> p = "builtin") /\
            lookup R "AES-128" p
            = Some (snd (find_maker R (plain_spec "AES-128") "builtin")).
Proof.
  intros R.
  exact (find_maker_answers_registered_entry string R (plain_spec "AES-128") "builtin").
Defined.

(** X10.  [make] hands on what the selected maker returns, a null pointer
    included, and the only exceptions that leave [make] are a
    [std::runtime_error] whose message starts with "Creating '", the
    canonical form and "' failed: ", or a thrown value that is not a
    [std::exception]: no [std::bad_function_call] and no other standard
    exception gets out. *)
Theorem make_outcomes (T : Type) (R : Algo_Registry T) (spec : Spec)
    (provider : string) :
  (forall tr p, invoke (snd (find_maker R spec provider)) spec = (tr, Normal p) ->
     make R spec provider = (lookup_events R ++ tr, Normal p)) /\
  (forall tr e, make R spec provider = (tr, Raise e) ->
     (exists w, e = runtime_error
                      ("Creating '" ++ as_string spec ++ "' failed: " ++ w)) \/
     what e = None).
Proof.
  rewrite make_unfold. unfold try_maker, try_catch_std, after.
  destruct (invoke (snd (find_maker R spec provider)) spec) as [tr0 [p0|e0]].
  - split.
    + now intros tr p [= <- <-].
    + intros tr e. discriminate.
  - split; [discriminate|].
    intros tr e. destruct (what e0) as [w|] eqn:Ew; cbn.
    + intros [= _ <-]. left. now exists w.
    + intros [= _ <-]. now right.
Qed.

Lemma make_outcomes_witness :
  let R : Algo_Registry string :=
    snd (add front_slot (new_registry 0) "RC4" "builtin" empty_function) in
  (exists w, runtime_error "Creating 'RC4' failed: bad_function_call"
             = runtime_error ("Creating '" ++ "RC4" ++ "' failed: " ++ w)) \/
  what (runtime_error "Creating 'RC4' failed: bad_function_call") = None.
Proof.
  intros R.
  exact (proj2 (make_outcomes string R (plain_spec "RC4") "builtin")
               [Lock 0; Unlock 0] _ eq_refl).
Defined.

(** * Further properties of the adapters *)

(** X11.  [make_new_T_1X] has no handler of its own.  If the specification
    has no argument 0, or the argument is not accepted as a specification,
    the failure leaves the adapter as it is and the registry of [X] is not
    even locked; if the construction of the inner object throws, that
    exception leaves the adapter unchanged. *)
Theorem make_new_T_1X_passes_failures_on (T X : Type) (T_wrapping : ptr X -> T)
    (Spec_of_string : string -> outcome Spec) (RX : Algo_Registry X)
    (spec : Spec) :
  (forall e, arg spec 0 = Raise e ->
     make_new_T_1X T_wrapping Spec_of_string RX spec = ([], Raise e)) /\
  (forall a e, arg spec 0 = Normal a -> Spec_of_string a = Raise e ->
     make_new_T_1X T_wrapping Spec_of_string RX spec = ([], Raise e)) /\
  (forall a s tr e, arg spec 0 = Normal a -> Spec_of_string a = Normal s ->
     make RX s "" = (tr, Raise e) ->
     make_new_T_1X T_wrapping Spec_of_string RX spec = (tr, Raise e)).
Proof.
  rewrite make_new_T_1X_unfold. repeat split.
  - now intros e ->.
  - intros a e -> . cbn [lift bind]. now intros ->.
  - intros a s tr e ->. cbn [lift bind]. intros ->. cbn [lift bind app].
    now intros ->.
Qed.

Lemma make_new_T_1X_passes_failures_on_witness :
  let RX := snd (add front_slot (new_registry 1) "AES-128" "builtin"
                   (throwing (foreign 3))) in
  make_new_T_1X (over "ctr") bare_name RX (plain_spec "CTR-BE")
    = ([], Raise (std_exception "argument out of range")) /\
  make_new_T_1X (over "ctr") bare_name RX (mkSpec "CTR-BE" ["AES-128"] "CTR-BE(AES-128)")
    = ([Lock 1; Unlock 1], Raise (foreign 3)).
Proof.
  intros RX.
  split.
  - apply (proj1 (make_new_T_1X_passes_failures_on string string (over "ctr")
                    bare_name RX (plain_spec "CTR-BE"))).
    reflexivity.
  - apply (proj2 (proj2 (make_new_T_1X_passes_failures_on string string (over "ctr")
                    bare_name RX (mkSpec "CTR-BE" ["AES-128"] "CTR-BE(AES-128)")))
             "AES-128" (plain_spec "AES-128")); reflexivity.
Defined.



(** X13.  A handle for a base name that is not registered yet, built from
    the name and [make_new_T] alone: afterwards [make_a] for that name
    returns the default-constructed object, with no provider or with
    "builtin", and with any other provider it returns a null pointer. *)
Theorem noargs_handle_round_trip (slot : string -> list string -> nat)
    (T : Type) (G : Algo_Registry T) (T_default : T) (spec : Spec) :
  UMap.find (algo_name spec) (m_maker_fns G) = None ->
  let G' := snd (Add slot G (algo_name spec) (target (make_new_T T_default)) None) in
  make_a G' spec None = (lookup_events G, Normal (obj T_default)) /\
  make_a G' spec (Some "builtin") = (lookup_events G, Normal (obj T_default)) /\
  (forall p, p <> "" -> p <> "builtin" ->
     make_a G' spec (Some p) = (lookup_events G, Normal nullptr)).
Proof.
  intros Hn G'.
  assert (Hf : UMap.find (algo_name spec) (m_maker_fns G')
               = Some [("builtin", target (make_new_T T_default))])
    by (apply add_fresh_name; exact Hn).
  assert (Hm : m_mutex G' = m_mutex G) by apply add_mutex.
  unfold make_a, make, find_maker, with_unique_lock, lookup_events.
  cbn [provider_or_default snd]. rewrite Hf, Hm. cbn.
  repeat split.
  intros p Hp Hb. apply String.eqb_neq in Hp, Hb. rewrite Hp, Hb. reflexivity.
Qed.

Lemma noargs_handle_round_trip_witness :
  let G' := snd (Add back_slot (new_registry 0) "Echo"
                   (target (make_new_T "echo")) None) in
  make_a G' (plain_spec "Echo") None = ([Lock 0; Unlock 0], Normal (obj "echo")) /\
  make_a G' (plain_spec "Echo") (Some "vendor") = ([Lock 0; Unlock 0], Normal nullptr).
Proof.
  intros G'.
  destruct (noargs_handle_round_trip back_slot string (new_registry 0) "echo"
              (plain_spec "Echo") eq_refl) as (H1 & _ & H4).
  split; [exact H1|].
  apply H4; discriminate.
Defined.

(** X14.  None of the adapters for no argument, one or two lengths, or a
    name ever returns a null pointer: each returns a new object or
    throws. *)
Theorem adapters_never_return_null (T : Type) (to_integer : string -> outcome nat)
    (T_default : T) (T_of_len : nat -> T) (T_of_2len : nat -> nat -> T)
    (T_of_str : string -> T) (second_first : bool) (d1 d2 : nat)
    (def : string) (spec : Spec) :
  snd (make_new_T T_default spec) <> Normal nullptr /\
  snd (make_new_T_1len to_integer T_of_len d1 spec) <> Normal nullptr /\
  snd (make_new_T_2len to_integer T_of_2len second_first d1 d2 spec)
    <> Normal nullptr /\
  snd (make_new_T_1str T_of_str def spec) <> Normal nullptr /\
  snd (make_new_T_1str_req T_of_str spec) <> Normal nullptr.
Proof.
  unfold make_new_T, make_new_T_1len, make_new_T_2len, make_new_T_1str,
    make_new_T_1str_req.
  repeat split; try discriminate.
  - destruct (arg_as_integer to_integer spec 0 d1); discriminate.
  - destruct second_first;
      destruct (arg_as_integer to_integer spec 0 d1);
      destruct (arg_as_integer to_integer spec 1 d2); discriminate.
  - destruct (arg spec 0); discriminate.
Qed.

(** X15.  On a specification without arguments the adapters with defaults
    construct from their defaults and do not look at the text of any
    argument, while the adapter for a required name throws.  On a
    specification with an argument 0, both adapters for a name construct
    from that argument. *)
Theorem adapters_on_missing_arguments (T : Type) (to_integer : string -> outcome nat)
    (T_of_len : nat -> T) (T_of_2len : nat -> nat -> T)
    (T_of_str : string -> T) (second_first : bool) (d1 d2 : nat)
    (def : string) (spec : Spec) :
  (args spec = [] ->
     make_new_T_1len to_integer T_of_len d1 spec = ret (obj (T_of_len d1)) /\
     make_new_T_2len to_integer T_of_2len second_first d1 d2 spec
       = ret (obj (T_of_2len d1 d2)) /\
     make_new_T_1str T_of_str def spec = ret (obj (T_of_str def)) /\
     exists e, make_new_T_1str_req T_of_str spec = raise e) /\
  (forall a rest, args spec = a :: rest ->
     make_new_T_1str T_of_str def spec = ret (obj (T_of_str a)) /\
     make_new_T_1str_req T_of_str spec = ret (obj (T_of_str a))).
Proof.
  unfold make_new_T_1len, make_new_T_2len, make_new_T_1str,
    make_new_T_1str_req, arg_as_integer, arg_or, arg.
  split.
  - intros ->. destruct second_first; cbn; repeat split; eexists; reflexivity.
  - intros a rest ->. cbn. split; reflexivity.
Qed.

Lemma adapters_on_missing_arguments_witness :
  make_new_T_2len (fun _ => Raise (foreign 0)) (fun a b => (a, b)) true 16 32
    (plain_spec "Salsa20") = ret (obj (16, 32)).
Proof.
  exact (proj1 (proj2 (proj1 (adapters_on_missing_arguments (nat * nat)
           (fun _ => Raise (foreign 0)) (fun a => (a, a)) (fun a b => (a, b))
           (fun _ => (0, 0)) true 16 32 "" (plain_spec "Salsa20")) eq_refl))).
Defined.

(** * Properties of the echo server *)

(** X16.  Whatever [desired] is, [read_loop] asks the socket for exactly
    the size of its buffer: the request never exceeds the buffer, and the
    number of bytes the TLS layer said it wanted has no influence on it. *)
Theorem asking_is_buffer_size (desired : N) :
  asking desired = sizeof_buf /\ (asking desired <= sizeof_buf)%N.
Proof.
  unfold asking, sizeof_buf. split; lia.
Qed.

Section EchoFacts.
Local Open Scope string_scope.

Lemma append_nil_r (s : string) : s ++ "" = s.
Proof. induction s as [|c s IH]; simpl; [reflexivity | now rewrite IH]. Qed.

Lemma append_assoc (s1 s2 s3 : string) : (s1 ++ s2) ++ s3 = s1 ++ (s2 ++ s3).
Proof. induction s1 as [|c s1 IH]; simpl; [reflexivity | now rewrite IH]. Qed.

Lemma written_app (c1 c2 : list tls_call) :
  written (c1 ++ c2)%list = written c1 ++ written c2.
Proof.
  induction c1 as [|[data| |f] c1 IH]; simpl; try exact IH.
  - reflexivity.
  - now rewrite IH, append_assoc.
Qed.

Lemma writes_app (c1 c2 : list tls_call) :
  writes (c1 ++ c2)%list = (writes c1 ++ writes c2)%list.
Proof.
  induction c1 as [|[data| |f] c1 IH]; simpl; try exact IH.
  - reflexivity.
  - now rewrite IH.
Qed.

Lemma no_newline_snoc (s : string) (b : ascii) :
  no_newline s = true -> Ascii.eqb b newline = false ->
  no_newline (s ++ String b "") = true.
Proof.
  intros Hs Hb. induction s as [|c s IH]; simpl in *.
  - now rewrite Hb.
  - apply andb_prop in Hs as [Hc Hs]. now rewrite Hc, IH.
Qed.

(** What one turn of the loop writes, and what it goes on with. *)
Lemma echo_byte_cases (line : string) (b : ascii) :
  (Ascii.eqb b newline = false /\
   echo_byte line b = ([], Some (line ++ String b ""))) \/
  (b = newline /\ line = "quit" /\
   echo_byte line b = ([Tls_write (with_newline "quit"); Tls_close], None)) \/
  (b = newline /\ line <> "quit" /\
   exists extra, echo_byte line b = (Tls_write (with_newline line) :: extra, Some "")
                 /\ written extra = "" /\ writes extra = []
                 /\ ~ In Tls_close extra).
Proof.
  unfold echo_byte.
  destruct (Ascii.eqb_spec b newline) as [->|Hb]; [|now left].
  right. fold (with_newline line).
  destruct (String.eqb_spec (with_newline line) (with_newline "quit")) as [E|E].
  - left. assert (line = "quit") as ->.
    { unfold with_newline in E. revert E. generalize "quit".
      induction line as [|c l IH]; intros [|c' q]; simpl; intros E.
      - reflexivity.
      - injection E as _ E. destruct q; discriminate E.
      - injection E as _ E. destruct l; discriminate E.
      - injection E as -> E. f_equal. now apply IH. }
    repeat split.
  - right. split; [reflexivity|]. split; [intros ->; now elim E|].
    eexists. split; [reflexivity|].
    destruct (String.eqb _ _); [|destruct (String.eqb _ _)];
      (repeat split; try reflexivity; cbn; intuition discriminate).
Qed.
End EchoFacts.

(** X17.  The echo loop loses and invents nothing: the line it started
    with followed by the bytes it was given is what it has written
    followed by the line it has begun and not finished, or, after "quit",
    followed by the bytes it never read. *)
Theorem echo_loop_accounts_for_input (line : string) (input : list ascii) :
  (line ++ string_of_list_ascii input)%string =
  (written (fst (echo_loop line input)) ++
   match snd (echo_loop line input) with
   | Drained line' => line'
   | Quit unread => string_of_list_ascii unread
   end)%string.
Proof.
  revert line. induction input as [|b input IH]; intros line.
  - simpl. apply append_nil_r.
  - cbn [echo_loop string_of_list_ascii].
    destruct (echo_byte_cases line b)
      as [(Hb & ->) | [(-> & -> & ->) | (-> & Hq & extra & -> & Hw & _)]].
    + specialize (IH (line ++ String b "")%string).
      destruct (echo_loop (line ++ String b "") input) as [calls e].
      cbn [fst snd app] in *. rewrite <- IH. now rewrite append_assoc.
    + reflexivity.
    + specialize (IH ""%string).
      destruct (echo_loop "" input) as [calls e].
      cbn [fst snd] in *. cbn [app written].
      rewrite written_app, Hw. cbn [append] in IH |- *.
      rewrite append_assoc, <- IH.
      unfold with_newline. now rewrite append_assoc.
Qed.

(** X18.  Started on a line that holds no newline, as [main] starts it on
    the empty line, the echo loop writes whole lines only: each write is
    text without a newline followed by one newline. *)
Theorem echo_writes_whole_lines (line : string) (input : list ascii) :
  no_newline line = true ->
  Forall is_line (writes (fst (echo_loop line input))).
Proof.
  revert line. induction input as [|b input IH]; intros line Hl.
  - constructor.
  - cbn [echo_loop].
    destruct (echo_byte_cases line b)
      as [(Hb & ->) | [(-> & -> & ->) | (-> & Hq & extra & -> & _ & Hw & _)]].
    + specialize (IH _ (no_newline_snoc line b Hl Hb)).
      destruct (echo_loop (line ++ String b "") input) as [calls e].
      exact IH.
    + cbn. constructor; [|constructor]. now exists "quit"%string.
    + specialize (IH ""%string eq_refl).
      destruct (echo_loop "" input) as [calls e].
      cbn [fst] in *. cbn [app writes]. rewrite writes_app, Hw.
      constructor; [|exact IH]. now exists line.
Qed.

Lemma echo_writes_whole_lines_witness :
  Forall is_line
    (writes (fst (echo_loop ""
                    (list_ascii_of_string (with_newline "hello" ++ "wor"))))).
Proof.
  exact (echo_writes_whole_lines "" _ eq_refl).
Defined.



